(** * LibrePCB S-expression document tree

    A shallow embedding of [librepcb::SExpression]
    (libs/librepcb/common/fileio/sexpression.h): the node type, the value
    codecs [objectToString] and [stringToObject], the typed accessors
    [getValue] and [getValueOfFirstChild], and the append methods defined in
    the header.

    - A [QString] is a [string]; C++ [int] is a [Z] inside the 32 bit range and
      [uint] an [N] below [2^32].
    - A C++ function that can throw returns a [Result]: [inl e] is the
      exception [e] leaving the function, [inr v] the returned value.
    - [try { ... } catch (const Exception& e) { ... }] is [try_catch].
    - Template specialisations selected by overload resolution are instances
      of the classes [ObjectToString] and [StringToObject].
    - A method returning [SExpression&] returns the node it leaves behind and
      the reference as a path from the receiver.

    The methods that the header only declares (their bodies are in
    sexpression.cpp), the exception classes, the Qt number conversions and
    the sexpresso parser are modelled from the specification of the format;
    each such definition says so.  The codecs of the Qt value classes QColor,
    QUrl and QDateTime are left out. *)

From Stdlib Require Import Bool Ascii String List ZArith NArith Lia.
Import ListNotations.
Local Open Scope string_scope.
Local Open Scope Z_scope.

(* ===================================================================== *)
(** * Qt strings *)
(* ===================================================================== *)

Definition QString : Type := string.

Module QStr.

(** [QString::isEmpty()]. *)
Definition isEmpty (s : QString) : bool :=
  match s with
  | EmptyString => true
  | String _ _ => false
  end.

(** Comparison of a [QString] with a string literal ([operator==]): exact,
    case sensitive. *)
Definition eqb (a b : QString) : bool := String.eqb a b.

(** [QChar::isSpace()] on the ASCII range: space, and tab to carriage
    return. *)
Definition isSpace (c : ascii) : bool :=
  let k := N_of_ascii c in
  ((k =? 32) || ((9 <=? k) && (k <=? 13)))%N.

Definition isDigit (c : ascii) : bool :=
  let k := N_of_ascii c in
  ((48 <=? k) && (k <=? 57))%N.

Definition digitValue (c : ascii) : N := (N_of_ascii c - 48)%N.
Definition digitChar (d : N) : ascii := ascii_of_N (48 + d).

(** The decimal digits of [n], most significant first, in front of [acc];
    [fuel] bounds the number of further digits. *)
Fixpoint digitsOf (fuel : nat) (n : N) (acc : string) : string :=
  let acc' := String (digitChar (n mod 10)) acc in
  match fuel with
  | O => acc'
  | S fuel' => if (n <? 10)%N then acc' else digitsOf fuel' (n / 10) acc'
  end.

(** Modelled from the spec: [QString::number(uint)] of the Qt library, the
    canonical base-10 text of an unsigned number. *)
Definition numberN (n : N) : QString :=
  digitsOf (N.to_nat (N.log2 n)) n EmptyString.

(** Modelled from the spec: [QString::number(int)] of the Qt library, the
    canonical base-10 text of an integer: a minus sign for a negative
    number, then the digits of the magnitude. *)
Definition number (n : Z) : QString :=
  if n <? 0 then String "-" (numberN (Z.to_N (- n))) else numberN (Z.to_N n).

Fixpoint skipSpaces (s : string) : string :=
  match s with
  | String c r => if isSpace c then skipSpaces r else s
  | EmptyString => EmptyString
  end.

Fixpoint allSpaces (s : string) : bool :=
  match s with
  | String c r => isSpace c && allSpaces r
  | EmptyString => true
  end.

Fixpoint dropTrailingSpaces (s : string) : string :=
  match s with
  | String c r => if allSpaces s then EmptyString else String c (dropTrailingSpaces r)
  | EmptyString => EmptyString
  end.

(** The value of a run of decimal digits read from the left, [None] when a
    character is not a digit. *)
Fixpoint readDigits (s : string) (acc : N) : option N :=
  match s with
  | EmptyString => Some acc
  | String c r =>
      if isDigit c then readDigits r (10 * acc + digitValue c)%N else None
  end.

(** How Qt's string to number conversions read a text in base 10:
    surrounding white space is skipped, a sign may come first, and at least
    one digit and nothing but digits follow.  The result is the sign that
    was read (true for a minus sign) and the magnitude. *)
Definition readInteger (s : string) : option (bool * N) :=
  match dropTrailingSpaces (skipSpaces s) with
  | EmptyString => None
  | String c r =>
      if Ascii.eqb c "-" then
        match r with
        | EmptyString => None
        | _ => option_map (fun v => (true, v)) (readDigits r 0)
        end
      else if Ascii.eqb c "+" then
        match r with
        | EmptyString => None
        | _ => option_map (fun v => (false, v)) (readDigits r 0)
        end
      else option_map (fun v => (false, v)) (readDigits (String c r) 0)
  end.

Definition INT_MIN : Z := -2147483648.
Definition INT_MAX : Z := 2147483647.
Definition UINT_MAX : N := 4294967295.

(** Modelled from the spec: [QString::toInt(bool* ok)] of the Qt library,
    base-10 text to [int].  The pair is the flag written to [ok] and the
    returned value: the text must denote a number that fits an [int],
    otherwise the flag is false and 0 is returned.  As in Qt, white space
    around the number is skipped and a plus sign is accepted. *)
Definition toInt (s : QString) : bool * Z :=
  match readInteger s with
  | Some (negative, magnitude) =>
      let v := if negative then - Z.of_N magnitude else Z.of_N magnitude in
      if (INT_MIN <=? v) && (v <=? INT_MAX) then (true, v) else (false, 0)
  | None => (false, 0)
  end.

(** Modelled from the spec: [QString::toUInt(bool* ok)] of the Qt library;
    a minus sign is refused. *)
Definition toUInt (s : QString) : bool * N :=
  match readInteger s with
  | Some (negative, magnitude) =>
      if negb negative && (magnitude <=? UINT_MAX)%N then (true, magnitude)
      else (false, 0%N)
  | None => (false, 0%N)
  end.

End QStr.

(* ===================================================================== *)
(** * Exceptions and fallible results *)
(* ===================================================================== *)

(** [FilePath] (filepath.h) is only stored and handed on. *)
Definition FilePath : Type := string.

(** Modelled from the spec: the exception classes of exceptions.h, which the
    header includes but which is not among the sources.  Every class derives
    from [Exception], so a handler for [const Exception&] receives each of
    them.  [RuntimeError(__FILE__, __LINE__, msg)] keeps its message (the
    two debug arguments are dropped); [FileParseError] keeps the file path,
    line, column, offending text and message it is constructed with. *)
Inductive Exception : Type :=
| RuntimeError (msg : QString)
| FileParseError (filePath : FilePath) (fileLine fileColumn : Z)
                 (invalidFileContent : QString) (msg : QString).

(** [Exception::getMsg()]. *)
Definition getMsg (e : Exception) : QString :=
  match e with
  | RuntimeError m => m
  | FileParseError _ _ _ _ m => m
  end.

Definition isFileParseError (e : Exception) : bool :=
  match e with
  | FileParseError _ _ _ _ _ => true
  | RuntimeError _ => false
  end.

Definition Result (A : Type) : Type := (Exception + A)%type.

Definition isFileParseError_result {A : Type} (r : Result A) : bool :=
  match r with
  | inl e => isFileParseError e
  | inr _ => false
  end.

Definition ret {A : Type} (a : A) : Result A := inr a.
Definition throw {A : Type} (e : Exception) : Result A := inl e.

Definition bind {A B : Type} (m : Result A) (k : A -> Result B) : Result B :=
  match m with
  | inl e => inl e
  | inr a => k a
  end.

Definition try_catch {A : Type} (body : Result A)
  (handler : Exception -> Result A) : Result A :=
  match body with
  | inl e => handler e
  | inr a => inr a
  end.

Declare Scope result_scope.
Delimit Scope result_scope with result.
Notation "x <- m ;; k" := (bind m (fun x => k))
  (at level 61, m at next level, right associativity) : result_scope.

(** [tr("...")]: the untranslated source text. *)
Definition tr (s : QString) : QString := s.

(* ===================================================================== *)
(** * The node type *)
(* ===================================================================== *)

(** [enum class SExpression::Type]. *)
Inductive NodeType : Type :=
| List_       (* has a tag name and an arbitrary number of children *)
| Token       (* values without quotes *)
| String_     (* values with double quotes *)
| LineBreak.  (* manual line break inside a List *)

Definition NodeType_eqb (a b : NodeType) : bool :=
  match a, b with
  | List_, List_ | Token, Token | String_, String_ | LineBreak, LineBreak => true
  | _, _ => false
  end.

(** The private data of [class SExpression]. *)
#[local] Unset Elimination Schemes.
Inductive SExpression : Type :=
  mkSExpression {
    mType : NodeType;
    mValue : QString;                (* either a list name, a token or a string *)
    mChildren : list SExpression;
    mFilePath : FilePath
  }.
#[local] Set Elimination Schemes.

(** Induction on a tree, with the property known of every child. *)
Fixpoint SExpression_tree_ind (P : SExpression -> Prop)
  (step : forall t v children fp,
      Forall P children -> P (mkSExpression t v children fp))
  (n : SExpression) : P n :=
  match n with
  | mkSExpression t v children fp =>
      step t v children fp
        ((fix all (l : list SExpression) : Forall P l :=
            match l with
            | [] => Forall_nil P
            | c :: r => Forall_cons c (SExpression_tree_ind P step c) (all r)
            end) children)
  end.

Definition getFilePath (n : SExpression) : FilePath := mFilePath n.
Definition getType (n : SExpression) : NodeType := mType n.
Definition isList (n : SExpression) : bool := NodeType_eqb (mType n) List_.
Definition isToken (n : SExpression) : bool := NodeType_eqb (mType n) Token.
Definition isString (n : SExpression) : bool := NodeType_eqb (mType n) String_.
Definition isLineBreak (n : SExpression) : bool := NodeType_eqb (mType n) LineBreak.
Definition getChildren (n : SExpression) : list SExpression := mChildren n.

(** Modelled from the spec: [isMultiLineList()], whose body is in
    sexpression.cpp: true iff the node is a List directly containing at
    least one LineBreak. *)
Definition isMultiLineList (n : SExpression) : bool :=
  isList n && existsb isLineBreak (mChildren n).

(* ===================================================================== *)
(** * Serialization and deserialization methods *)
(* ===================================================================== *)

Definition int : Type := Z.
Definition uint : Type := N.

(** [template <typename T> static QString objectToString(const T& obj)]. *)
Class ObjectToString (T : Type) : Type :=
  objectToString : T -> QString.

(** [template <typename T> static T stringToObject(const QString& str, T* dummy)]. *)
Class StringToObject (T : Type) : Type :=
  stringToObject : QString -> Result T.

(** What the general templates ask of every other type [T]: a method
    [QString serializeToString() const] and a static method
    [T deserializeFromString(const QString& str)], which can throw. *)
Class SerializableObject (T : Type) : Type := {
  serializeToString : T -> QString;
  deserializeFromString : QString -> Result T
}.

(** The static member [T::sRepresentationOfNull] used by the overloads for
    [tl::optional<T>]. *)
Class HasRepresentationOfNull (T : Type) : Type :=
  sRepresentationOfNull : QString.
Arguments sRepresentationOfNull T {_}.

#[export] Instance objectToString_QString : ObjectToString QString :=
  fun obj => obj.

#[export] Instance objectToString_bool : ObjectToString bool :=
  fun obj => if obj then "true" else "false".

#[export] Instance objectToString_int : ObjectToString int :=
  fun obj => QStr.number obj.

#[export] Instance objectToString_uint : ObjectToString uint :=
  fun obj => QStr.numberN obj.

(** All other types need to have a method [serializeToString]. *)
#[export] Instance objectToString_object {T : Type} `{SerializableObject T}
  : ObjectToString T | 10 :=
  fun obj => serializeToString obj.

#[export] Instance objectToString_optional {T : Type} `{SerializableObject T}
  `{HasRepresentationOfNull T} : ObjectToString (option T) :=
  fun obj =>
    match obj with
    | Some v => serializeToString v
    | None => sRepresentationOfNull T
    end.

#[export] Instance stringToObject_QString : StringToObject QString :=
  fun str => ret str.

#[export] Instance stringToObject_bool : StringToObject bool :=
  fun str =>
    if QStr.eqb str "true" then ret true
    else if QStr.eqb str "false" then ret false
    else throw (RuntimeError (tr "Not a valid boolean.")).

#[export] Instance stringToObject_int : StringToObject int :=
  fun str =>
    let '(ok, value) := QStr.toInt str in
    if ok then ret value
    else throw (RuntimeError (tr "Not a valid integer.")).

#[export] Instance stringToObject_uint : StringToObject uint :=
  fun str =>
    let '(ok, value) := QStr.toUInt str in
    if ok then ret value
    else throw (RuntimeError (tr "Not a valid unsigned integer.")).

(** All other types need to have a static method [deserializeFromString]. *)
#[export] Instance stringToObject_object {T : Type} `{SerializableObject T}
  : StringToObject T | 10 :=
  fun str => deserializeFromString str.

#[export] Instance stringToObject_optional {T : Type} `{SerializableObject T}
  `{HasRepresentationOfNull T} : StringToObject (option T) :=
  fun str =>
    if QStr.eqb str (sRepresentationOfNull T) then ret None
    else (v <- deserializeFromString str ;; ret (Some v))%result.

(* ===================================================================== *)
(** * Typed accessors *)
(* ===================================================================== *)

(** [template <typename T> T getValue(bool throwIfEmpty = false) const]. *)
Definition getValue {T : Type} `{StringToObject T}
  (n : SExpression) (throwIfEmpty : bool) : Result T :=
  try_catch
    (if negb (isToken n) && negb (isString n) then
       throw (RuntimeError (tr "Node is not a token or string."))
     else if QStr.isEmpty (mValue n) && throwIfEmpty then
       throw (RuntimeError (tr "Node value is empty."))
     else stringToObject (mValue n))
    (fun e =>
       throw (FileParseError (mFilePath n) (-1) (-1) (mValue n) (getMsg e))).

(** [template <typename T> T getValueOfFirstChild(bool throwIfEmpty = false) const].
    The first branch is [mChildren.count() < 1], the second reads
    [mChildren.at(0)]. *)
Definition getValueOfFirstChild {T : Type} `{StringToObject T}
  (n : SExpression) (throwIfEmpty : bool) : Result T :=
  match mChildren n with
  | [] =>
      throw (FileParseError (mFilePath n) (-1) (-1) EmptyString
               (tr "Node does not have children."))
  | child0 :: _ => getValue child0 throwIfEmpty
  end.

(** [template <typename T> T getValueByPath(const QString& path,
    bool throwIfEmpty = false) const].  [getChildByPath] is declared in the
    header and defined in sexpression.cpp; the method is embedded over
    whatever path resolution it is given. *)
Definition getValueByPath {T : Type} `{StringToObject T}
  (getChildByPath : SExpression -> QString -> Result SExpression)
  (n : SExpression) (path : QString) (throwIfEmpty : bool) : Result T :=
  (child <- getChildByPath n path ;; getValueOfFirstChild child throwIfEmpty)%result.

(* ===================================================================== *)
(** * General methods: building a tree *)
(* ===================================================================== *)

(** A method that returns [SExpression&] hands back a reference into the
    tree it was called on.  Such a reference is the path of child indices
    that leads from the receiver to the node referred to: the empty path is
    the receiver itself ([return *this]). *)
Definition Ref : Type := list nat.

Definition thisRef : Ref := [].

(** The node a reference designates. *)
Fixpoint resolve (n : SExpression) (r : Ref) : option SExpression :=
  match r with
  | [] => Some n
  | i :: r' =>
      match nth_error (mChildren n) i with
      | Some c => resolve c r'
      | None => None
      end
  end.

Definition setChildren (n : SExpression) (children : list SExpression) : SExpression :=
  mkSExpression (mType n) (mValue n) children (mFilePath n).

Fixpoint replaceNth {A : Type} (l : list A) (i : nat) (x : A) : list A :=
  match l, i with
  | [], _ => []
  | _ :: t, O => x :: t
  | h :: t, S i' => h :: replaceNth t i' x
  end.

(** Calling a mutating method through a reference: the node referred to is
    replaced by what the method leaves behind, and the reference the method
    returns is relative to that node; a failure of the method is the
    failure of the call.  (A path that leads nowhere changes nothing; the
    references returned by the append methods always lead to a node.) *)
Fixpoint callAt (n : SExpression) (r : Ref)
  (method : SExpression -> Result (SExpression * Ref)) : Result (SExpression * Ref) :=
  match r with
  | [] => method n
  | i :: r' =>
      match nth_error (mChildren n) i with
      | Some c =>
          (res <- callAt c r' method ;;
           ret (setChildren n (replaceNth (mChildren n) i (fst res)), i :: snd res))%result
      | None => ret (n, r)
      end
  end.

(** The default constructed [FilePath]. *)
Definition noFilePath : FilePath := EmptyString.

(** Modelled from the spec: the factory operations [createList],
    [createToken], [createString] and [createLineBreak], whose bodies are in
    sexpression.cpp, not among the sources.  Each builds a node of its kind
    with the given text, without children. *)
Definition createList (name : QString) : SExpression :=
  mkSExpression List_ name [] noFilePath.

Definition createToken (token : QString) : SExpression :=
  mkSExpression Token token [] noFilePath.

Definition createString (string : QString) : SExpression :=
  mkSExpression String_ string [] noFilePath.

Definition createLineBreak : SExpression :=
  mkSExpression LineBreak EmptyString [] noFilePath.

(** Modelled from the spec: [appendChild(child, linebreak)], whose body is in
    sexpression.cpp; the header declares it without noexcept.  Only List
    nodes have children: on a receiver of another kind the operation fails
    with the error for a wrong node kind and nothing is appended.  On a
    List the child goes to the end of the children; a forced break request
    inserts a LineBreak node immediately after the appended child.  The
    reference returned is the one to the appended child. *)
Definition appendChild (n : SExpression) (child : SExpression) (linebreak : bool)
  : Result (SExpression * Ref) :=
  if isList n then
    ret (setChildren n
           (mChildren n ++ child :: (if linebreak then [createLineBreak] else [])),
         [length (mChildren n)])
  else throw (RuntimeError (tr "Node is not a list.")).

(** Modelled from the spec: [appendList(name, linebreak)], whose body is in
    sexpression.cpp: it returns a reference to the new child for chaining. *)
Definition appendList (n : SExpression) (name : QString) (linebreak : bool)
  : Result (SExpression * Ref) :=
  appendChild n (createList name) linebreak.

(** Modelled from the spec: [appendLineBreak()], whose body is in
    sexpression.cpp; a LineBreak is a child like any other, so only a List
    takes one. *)
Definition appendLineBreak (n : SExpression) : Result (SExpression * Ref) :=
  if isList n then ret (setChildren n (mChildren n ++ [createLineBreak]), thisRef)
  else throw (RuntimeError (tr "Node is not a list.")).

(** [template <typename T> SExpression& appendToken(const T& token)]:
    [appendChild(createToken(objectToString(token)), false); return *this;] *)
Definition appendToken {T : Type} `{ObjectToString T}
  (n : SExpression) (token : T) : Result (SExpression * Ref) :=
  (res <- appendChild n (createToken (objectToString token)) false ;;
   ret (fst res, thisRef))%result.

(** [template <typename T> SExpression& appendString(const T& string)]:
    [appendChild(createString(objectToString(string)), false); return *this;] *)
Definition appendString {T : Type} `{ObjectToString T}
  (n : SExpression) (string : T) : Result (SExpression * Ref) :=
  (res <- appendChild n (createString (objectToString string)) false ;;
   ret (fst res, thisRef))%result.

(** [appendTokenChild(child, token, linebreak)]:
    [return appendList(child, linebreak).appendToken<T>(token);] *)
Definition appendTokenChild {T : Type} `{ObjectToString T}
  (n : SExpression) (child : QString) (token : T) (linebreak : bool)
  : Result (SExpression * Ref) :=
  (res <- appendList n child linebreak ;;
   callAt (fst res) (snd res) (fun c => appendToken c token))%result.

(** [appendStringChild(child, string, linebreak)]:
    [return appendList(child, linebreak).appendString<T>(string);] *)
Definition appendStringChild {T : Type} `{ObjectToString T}
  (n : SExpression) (child : QString) (string : T) (linebreak : bool)
  : Result (SExpression * Ref) :=
  (res <- appendList n child linebreak ;;
   callAt (fst res) (snd res) (fun c => appendString c string))%result.

(* ===================================================================== *)
(** * Grammar primitives *)
(* ===================================================================== *)

Definition quoteChar : ascii := "034"%char.
Definition backslashChar : ascii := "092"%char.
Definition newlineChar : ascii := "010"%char.

(** The characters that end a bare run: white space, parentheses and the
    double quote. *)
Definition isDelimiter (c : ascii) : bool :=
  QStr.isSpace c || Ascii.eqb c "(" || Ascii.eqb c ")" || Ascii.eqb c quoteChar.

Fixpoint allTokenChars (s : string) : bool :=
  match s with
  | EmptyString => true
  | String c r => negb (isDelimiter c) && allTokenChars r
  end.

(** Modelled from the spec: [isValidToken], whose body is in sexpression.cpp.
    A token is a nonempty bare run excluding white space, parentheses and
    double quotes; this is the widest character set the grammar admits. *)
Definition isValidToken (token : QString) : bool :=
  negb (QStr.isEmpty token) && allTokenChars token.

(** Modelled from the spec: [isValidListName], whose body is in
    sexpression.cpp.  A list name is nonempty and, being read back as the
    first bare run of its list, made of the characters of a token. *)
Definition isValidListName (name : QString) : bool :=
  negb (QStr.isEmpty name) && allTokenChars name.

Definition escapeChar (c : ascii) : string :=
  if Ascii.eqb c quoteChar then String backslashChar (String quoteChar EmptyString)
  else if Ascii.eqb c backslashChar then
    String backslashChar (String backslashChar EmptyString)
  else if Ascii.eqb c newlineChar then String backslashChar (String "n" EmptyString)
  else String c EmptyString.

(** Modelled from the spec: [escapeString], whose body is in sexpression.cpp:
    backslash escapes for quote, backslash and newline. *)
Fixpoint escapeString (s : QString) : QString :=
  match s with
  | EmptyString => EmptyString
  | String c r => escapeChar c ++ escapeString r
  end.

(* ===================================================================== *)
(** * Textual renderer *)
(* ===================================================================== *)

(** One fixed unit, a space, per nesting depth. *)
Fixpoint indentation (level : nat) : string :=
  match level with
  | O => EmptyString
  | S l => String " " (indentation l)
  end.

Definition startsWithLineBreak (children : list SExpression) : bool :=
  match children with
  | c :: _ => isLineBreak c
  | [] => false
  end.

(** What a LineBreak child contributes to the layout of its list: the first
    marker of a run ends the line; a run of several markers collapses to a
    single blank line; the last marker of a run indents the next line to
    [level]. *)
Definition lineBreakText (afterBreak nextIsBreak : bool) (level : nat) : string :=
  (if afterBreak then EmptyString else String newlineChar EmptyString)
  ++ (if negb afterBreak && nextIsBreak then String newlineChar EmptyString
      else EmptyString)
  ++ (if nextIsBreak then EmptyString else indentation level).

(** The children of a list whose own line is at [indent].  Without a
    LineBreak child all children are inline, each after a space.  A
    LineBreak child starts a new line one level deeper than the list's own
    line; the content between two markers shares a line. *)
Fixpoint renderChildren (render : SExpression -> QString) (indent : nat)
  (children : list SExpression) (afterBreak : bool) : QString :=
  match children with
  | [] => EmptyString
  | c :: rest =>
      if isLineBreak c then
        lineBreakText afterBreak (startsWithLineBreak rest) (S indent)
        ++ renderChildren render indent rest true
      else
        (if afterBreak then EmptyString else " ")
        ++ render c ++ renderChildren render indent rest false
  end.

(** Modelled from the spec: [toString(indent)], whose body is in
    sexpression.cpp.  A List renders as an opening parenthesis, its name,
    its children and a closing parenthesis; a Token verbatim; a String
    quoted and escaped; a LineBreak as nothing, it affects only the layout
    of its parent. *)
Fixpoint toString (n : SExpression) (indent : nat) : QString :=
  match n with
  | mkSExpression List_ name children _ =>
      String "(" (name
        ++ renderChildren (fun c => toString c (S indent)) indent children false
        ++ ")")
  | mkSExpression Token value _ _ => value
  | mkSExpression String_ value _ _ =>
      String quoteChar (escapeString value ++ String quoteChar EmptyString)
  | mkSExpression LineBreak _ _ _ => EmptyString
  end.

(* ===================================================================== *)
(** * The generic expression parser *)
(* ===================================================================== *)

Module sexpresso.

(** Modelled from the spec: [sexpresso::Sexp], the generic parenthesized tree
    of the external parser.  A leaf carries the parser's own quoting flag. *)
#[local] Unset Elimination Schemes.
Inductive Sexp : Type :=
| Leaf (quoted : bool) (text : string)
| Form (items : list Sexp).
#[local] Set Elimination Schemes.

Inductive Lexeme : Type :=
| LParen
| RParen
| Atom (quoted : bool) (text : string).

Inductive LexState : Type :=
| Idle                          (* between lexemes *)
| InToken (text : string)       (* inside a bare run *)
| InString (text : string)      (* inside double quotes *)
| InEscape (text : string).     (* after a backslash inside double quotes *)

Definition emit (l : Lexeme) (rest : option (list Lexeme)) : option (list Lexeme) :=
  option_map (cons l) rest.

Definition snoc (s : string) (c : ascii) : string := s ++ String c EmptyString.

(** Modelled from the spec: tokenization and quoted-string extraction of the
    external parser, after the text grammar: bare runs excluding white
    space, parentheses and double quotes; double-quoted text with backslash
    escapes for quote, backslash and newline.  [None] is the failure for an
    unterminated string or an unknown escape. *)
Fixpoint lex (st : LexState) (s : string) : option (list Lexeme) :=
  match s with
  | EmptyString =>
      match st with
      | Idle => Some []
      | InToken t => Some [Atom false t]
      | InString _ | InEscape _ => None
      end
  | String c r =>
      let idle :=
        if QStr.isSpace c then lex Idle r
        else if Ascii.eqb c "(" then emit LParen (lex Idle r)
        else if Ascii.eqb c ")" then emit RParen (lex Idle r)
        else if Ascii.eqb c quoteChar then lex (InString EmptyString) r
        else lex (InToken (String c EmptyString)) r in
      match st with
      | Idle => idle
      | InToken t =>
          if isDelimiter c then emit (Atom false t) idle
          else lex (InToken (snoc t c)) r
      | InString t =>
          if Ascii.eqb c quoteChar then emit (Atom true t) (lex Idle r)
          else if Ascii.eqb c backslashChar then lex (InEscape t) r
          else lex (InString (snoc t c)) r
      | InEscape t =>
          if Ascii.eqb c quoteChar then lex (InString (snoc t quoteChar)) r
          else if Ascii.eqb c backslashChar then lex (InString (snoc t backslashChar)) r
          else if Ascii.eqb c "n" then lex (InString (snoc t newlineChar)) r
          else None
      end
  end.

(** Modelled from the spec: the structural parsing of the external parser.
    [stack] holds the items read so far of every form that is still open,
    innermost first, and [current] those of the innermost level, both in
    reverse.  [None] is the failure for unbalanced parentheses. *)
Fixpoint structure (lexemes : list Lexeme) (stack : list (list Sexp))
  (current : list Sexp) : option (list Sexp) :=
  match lexemes with
  | [] =>
      match stack with
      | [] => Some (rev current)
      | _ :: _ => None
      end
  | LParen :: r => structure r (current :: stack) []
  | RParen :: r =>
      match stack with
      | [] => None
      | parent :: stack' => structure r stack' (Form (rev current) :: parent)
      end
  | Atom quoted text :: r => structure r stack (Leaf quoted text :: current)
  end.

(** Modelled from the spec: [sexpresso::parse], text to the generic
    expressions at its top level, or a structural parse failure. *)
Definition parse (str : string) : option (list Sexp) :=
  match lex Idle str with
  | Some lexemes => structure lexemes [] []
  | None => None
  end.

End sexpresso.

(* ===================================================================== *)
(** * Parser adapter *)
(* ===================================================================== *)

Fixpoint mapResult {A B : Type} (f : A -> Result B) (l : list A) : Result (list B) :=
  match l with
  | [] => ret []
  | x :: r => (y <- f x ;; ys <- mapResult f r ;; ret (y :: ys))%result
  end.

(** Modelled from the spec: the private constructor
    [SExpression(sexpresso::Sexp& sexp, const FilePath& filePath)], whose
    body is in sexpression.cpp.  A leaf is a Token or a String per the
    quoting flag; a parenthesized form is a List whose first leaf is the
    name and whose remaining elements are the children; every node is
    stamped with the file path; an empty form is a failure. *)
Fixpoint fromSexp (sexp : sexpresso.Sexp) (filePath : FilePath) : Result SExpression :=
  match sexp with
  | sexpresso.Leaf quoted text =>
      ret (mkSExpression (if quoted then String_ else Token) text [] filePath)
  | sexpresso.Form [] =>
      throw (FileParseError filePath (-1) (-1) EmptyString (tr "List is empty."))
  | sexpresso.Form (sexpresso.Leaf _ name :: items) =>
      (children <- mapResult (fun item => fromSexp item filePath) items ;;
       ret (mkSExpression List_ name children filePath))%result
  | sexpresso.Form (sexpresso.Form _ :: _) =>
      throw (FileParseError filePath (-1) (-1) EmptyString
               (tr "List does not start with a name."))
  end.

(** Modelled from the spec: [parse(str, filePath)], whose body is in
    sexpression.cpp.  The text is handed to the external parser and its
    result, one expression, is classified; malformed input is a
    FileParseError. *)
Definition parse (str : QString) (filePath : FilePath) : Result SExpression :=
  match sexpresso.parse str with
  | Some [root] => fromSexp root filePath
  | Some _ =>
      throw (FileParseError filePath (-1) (-1) EmptyString
               (tr "File does not have exactly one root node."))
  | None =>
      throw (FileParseError filePath (-1) (-1) EmptyString
               (tr "File is malformed."))
  end.

(* ===================================================================== *)
(** * Structural comparison *)
(* ===================================================================== *)

Fixpoint stripChildren (strip : SExpression -> SExpression)
  (children : list SExpression) : list SExpression :=
  match children with
  | [] => []
  | c :: rest =>
      if isLineBreak c then stripChildren strip rest
      else strip c :: stripChildren strip rest
  end.

(** Modelled from the spec: [removeLineBreaks()], whose body is in
    sexpression.cpp: recursively strips the LineBreak children. *)
Fixpoint removeLineBreaks (n : SExpression) : SExpression :=
  match n with
  | mkSExpression t v children fp =>
      mkSExpression t v (stripChildren removeLineBreaks children) fp
  end.

Fixpoint forall2b {A : Type} (f : A -> A -> bool) (la lb : list A) : bool :=
  match la, lb with
  | [], [] => true
  | x :: la', y :: lb' => f x y && forall2b f la' lb'
  | _, _ => false
  end.

(** Modelled from the spec: node equality is structural (kind, value and
    children); the file path is excluded. *)
Fixpoint deepEquals (a b : SExpression) : bool :=
  match a, b with
  | mkSExpression ta va ca _, mkSExpression tb vb cb _ =>
      NodeType_eqb ta tb && String.eqb va vb && forall2b deepEquals ca cb
  end.

(** The same tree with every node stamped with [filePath]. *)
Fixpoint withFilePath (filePath : FilePath) (n : SExpression) : SExpression :=
  match n with
  | mkSExpression t v children _ =>
      mkSExpression t v (map (withFilePath filePath) children) filePath
  end.

Definition isNil {A : Type} (l : list A) : bool :=
  match l with
  | [] => true
  | _ :: _ => false
  end.

(** The invariants of the data model: a List has a valid name; a Token is a
    valid token; only List nodes have children; a LineBreak is content
    free. *)
Fixpoint wellFormed (n : SExpression) : bool :=
  match n with
  | mkSExpression List_ name children _ =>
      isValidListName name && forallb wellFormed children
  | mkSExpression Token value children _ => isValidToken value && isNil children
  | mkSExpression String_ _ children _ => isNil children
  | mkSExpression LineBreak value children _ => QStr.isEmpty value && isNil children
  end.

(** A tree built only from List, Token and String nodes. *)
Fixpoint hasNoLineBreak (n : SExpression) : bool :=
  match n with
  | mkSExpression t _ children _ =>
      negb (NodeType_eqb t LineBreak) && forallb hasNoLineBreak children
  end.

(* ===================================================================== *)
(** * What the rendered text of a tree is read as *)
(* ===================================================================== *)

(** The lexemes of a tree in reading order; a LineBreak has none. *)
Fixpoint lexemesOf (n : SExpression) : list sexpresso.Lexeme :=
  match n with
  | mkSExpression List_ name children _ =>
      sexpresso.LParen :: sexpresso.Atom false name
        :: flat_map lexemesOf children ++ [sexpresso.RParen]
  | mkSExpression Token value _ _ => [sexpresso.Atom false value]
  | mkSExpression String_ value _ _ => [sexpresso.Atom true value]
  | mkSExpression LineBreak _ _ _ => []
  end.

Fixpoint contentOf {A : Type} (f : SExpression -> A)
  (children : list SExpression) : list A :=
  match children with
  | [] => []
  | c :: rest =>
      if isLineBreak c then contentOf f rest else f c :: contentOf f rest
  end.

(** The generic expression of a tree: its LineBreak children leave no
    trace. *)
Fixpoint sexpOf (n : SExpression) : sexpresso.Sexp :=
  match n with
  | mkSExpression List_ name children _ =>
      sexpresso.Form (sexpresso.Leaf false name :: contentOf sexpOf children)
  | mkSExpression String_ value _ _ => sexpresso.Leaf true value
  | mkSExpression _ value _ _ => sexpresso.Leaf false value
  end.

(** A text that ends a bare run in front of it: the end of the input, or a
    delimiter. *)
Definition delimited (rest : string) : bool :=
  match rest with
  | EmptyString => true
  | String c _ => isDelimiter c
  end.

(** The text that [render] gives a well-formed node is read, in front of a
    delimiter, as the lexemes of the node. *)
Definition readsBack (render : SExpression -> QString) (c : SExpression) : Prop :=
  wellFormed c = true ->
  forall rest : string,
    delimited rest = true ->
    sexpresso.lex sexpresso.Idle (render c ++ rest)
      = option_map (app (lexemesOf c)) (sexpresso.lex sexpresso.Idle rest).

(* ===================================================================== *)
(** * Base-10 texts *)
(* ===================================================================== *)

(** What the specification calls the canonical base-10 text of an integer,
    written down without reference to the conversions above: a minus sign
    only in front of a number that is not zero, no other sign, no white
    space, at least one digit, and no leading zero except for the single
    digit of zero itself. *)
Fixpoint allDigits (s : string) : bool :=
  match s with
  | EmptyString => true
  | String c r => QStr.isDigit c && allDigits r
  end.

Definition isCanonicalNatural (s : string) : bool :=
  match s with
  | EmptyString => false
  | String c r =>
      QStr.isDigit c && allDigits r
      && (QStr.isEmpty r || negb (Ascii.eqb c "0"))
  end.

Definition isCanonicalDecimal (s : string) : bool :=
  match s with
  | String "-" r => isCanonicalNatural r && negb (String.eqb r "0")
  | _ => isCanonicalNatural s
  end.

(** The number a run of digits denotes by place value: each digit counts
    for ten to the power of the number of digits after it. *)
Fixpoint placeValue (s : string) : N :=
  match s with
  | EmptyString => 0
  | String c r => QStr.digitValue c * 10 ^ N.of_nat (String.length r) + placeValue r
  end%N.

Definition decimalValue (s : string) : Z :=
  match s with
  | String "-" r => - Z.of_N (placeValue r)
  | _ => Z.of_N (placeValue s)
  end.

(** What makes a text a valid integer, written down without reference to
    the conversions above: white space or none, then a minus sign, a plus
    sign or none, then at least one digit and only digits, then white space
    or none.  The number it denotes is the place value of the digits,
    negated after a minus sign. *)
Definition denotesInteger (s : string) (n : Z) : Prop :=
  exists lead sign digits trail : string,
    s = lead ++ sign ++ digits ++ trail
    /\ QStr.allSpaces lead = true /\ QStr.allSpaces trail = true
    /\ (sign = EmptyString \/ sign = "-" \/ sign = "+")
    /\ digits <> EmptyString /\ allDigits digits = true
    /\ n = (if String.eqb sign "-" then - Z.of_N (placeValue digits)
            else Z.of_N (placeValue digits)).

(** A character that no base-10 text of an integer contains: neither a
    digit, nor a sign, nor white space. *)
Definition isForeignChar (c : ascii) : bool :=
  negb (QStr.isDigit c || QStr.isSpace c || Ascii.eqb c "-" || Ascii.eqb c "+").

Fixpoint hasForeignChar (s : string) : bool :=
  match s with
  | EmptyString => false
  | String c r => isForeignChar c || hasForeignChar r
  end.

(* ===================================================================== *)
(** * Sample values *)
(* ===================================================================== *)

(** A value class in the style of the library's own: the text is kept as
    written, every text is accepted, and the word none stands for the
    missing value. *)
Record Label : Type := mkLabel { labelText : QString }.

#[export] Instance SerializableObject_Label : SerializableObject Label := {
  serializeToString l := labelText l;
  deserializeFromString str := ret (mkLabel str)
}.

#[export] Instance HasRepresentationOfNull_Label : HasRepresentationOfNull Label :=
  "none".

(** A value class whose texts never collide with its null text: a layer
    number written in base 10. *)
Record Layer : Type := mkLayer { layerNumber : N }.

#[export] Instance SerializableObject_Layer : SerializableObject Layer := {
  serializeToString l := QStr.numberN (layerNumber l);
  deserializeFromString str :=
    let '(ok, value) := QStr.toUInt str in
    if ok then ret (mkLayer value)
    else throw (RuntimeError (tr "Not a valid layer."))
}.

#[export] Instance HasRepresentationOfNull_Layer : HasRepresentationOfNull Layer :=
  "none".

Definition sampleFile : FilePath := "board.lp".

Definition sampleList : SExpression :=
  mkSExpression List_ "symbol" [] sampleFile.

Definition sampleEmptyToken : SExpression :=
  mkSExpression Token EmptyString [] sampleFile.

Definition sampleBadBool : SExpression :=
  mkSExpression Token "maybe" [] sampleFile.

Definition sampleParent : SExpression :=
  mkSExpression List_ "mirror"
    [mkSExpression Token "true" [] sampleFile;
     mkSExpression Token "false" [] sampleFile] sampleFile.

(** A list that starts with a line break, as written by a forced break
    before the first value. *)
Definition sampleLeadingBreak : SExpression :=
  mkSExpression List_ "pad"
    [mkSExpression LineBreak EmptyString [] sampleFile;
     mkSExpression Token "true" [] sampleFile] sampleFile.

Definition sampleNullToken : SExpression :=
  mkSExpression Token "none" [] sampleFile.

(** A board file in miniature: nested lists, tokens, and a string with a
    quote, a backslash and a newline in it. *)
Definition sampleTree : SExpression :=
  mkSExpression List_ "board"
    [mkSExpression List_ "uuid"
       [mkSExpression Token "71762d7e-e7f1-403c-8020-db9670c01e9b" [] noFilePath]
       noFilePath;
     mkSExpression List_ "name"
       [mkSExpression String_
          (String quoteChar "top" ++ String backslashChar "side"
             ++ String newlineChar "copper") [] noFilePath]
       noFilePath;
     mkSExpression List_ "layers" [] noFilePath;
     mkSExpression Token "-12.34" [] noFilePath]
    noFilePath.

(* ===================================================================== *)
(** * Properties of the typed accessors *)
(* ===================================================================== *)

Lemma QStr_eqb_eq (a b : QString) : QStr.eqb a b = true <-> a = b.
Proof. unfold QStr.eqb. apply String.eqb_eq. Qed.

Lemma QStr_eqb_refl (a : QString) : QStr.eqb a a = true.
Proof. apply QStr_eqb_eq. reflexivity. Qed.

Lemma QStr_eqb_neq (a b : QString) : QStr.eqb a b = false <-> a <> b.
Proof. unfold QStr.eqb. apply String.eqb_neq. Qed.

Lemma QStr_isEmpty_true (s : QString) : QStr.isEmpty s = true <-> s = EmptyString.
Proof. destruct s; simpl; split; congruence. Qed.

Section GetValue.

Context {T : Type} {codec : StringToObject T}.

(** Whatever is thrown inside the try block of [getValue] leaves it as a
    [FileParseError] that carries the file path and the raw text of the
    node. *)
Lemma getValue_failure (n : SExpression) (b : bool) (e : Exception) :
  getValue (T := T) n b = inl e ->
  exists m, e = FileParseError (mFilePath n) (-1) (-1) (mValue n) m.
Proof.
  unfold getValue, try_catch, throw.
  destruct (negb (isToken n) && negb (isString n)).
  - intros [= <-]. eauto.
  - destruct (QStr.isEmpty (mValue n) && b).
    + intros [= <-]. eauto.
    + destruct (stringToObject (mValue n)); intros [= <-]. eauto.
Qed.

(** A value is returned exactly when the node is a token or a string, the
    empty check passes and the codec accepts the text. *)
Lemma getValue_success (n : SExpression) (b : bool) (v : T) :
  getValue n b = inr v <->
  (isToken n || isString n = true) /\
  (QStr.isEmpty (mValue n) && b = false) /\
  stringToObject (mValue n) = inr v.
Proof.
  unfold getValue, try_catch, throw.
  destruct (isToken n), (isString n); simpl;
    destruct (QStr.isEmpty (mValue n)), b; simpl;
    try destruct (stringToObject (mValue n)); intuition congruence.
Qed.

(** C2 (as amended): for every node that is neither a Token nor a String,
    getValue fails, and the failure that reaches the caller is the
    FileParseError built by the catch block: it carries the file path of
    the node, the value of the node and the message of the RuntimeError
    thrown inside the try block. *)
Theorem getValue_not_token_or_string (n : SExpression) (b : bool) :
  isToken n = false -> isString n = false ->
  getValue (T := T) n b =
    inl (FileParseError (mFilePath n) (-1) (-1) (mValue n)
           "Node is not a token or string.").
Proof.
  intros Ht Hs. unfold getValue. rewrite Ht, Hs. reflexivity.
Qed.

(** C3: for every Token or String node whose raw text the codec of the
    target type rejects (with whatever exception e), getValue fails with a
    FileParseError carrying the file path of the node and the raw text; the
    message is that of e, or the empty value message when the text is empty
    and throwIfEmpty is set.  No failure of getValue is anything but such a
    FileParseError, so the exception of the codec never leaves unwrapped. *)
Theorem getValue_wraps_codec_failure (n : SExpression) (b : bool) (e : Exception) :
  isToken n || isString n = true ->
  stringToObject (mValue n) = inl e ->
  getValue (T := T) n b =
    inl (FileParseError (mFilePath n) (-1) (-1) (mValue n)
           (if QStr.isEmpty (mValue n) && b then "Node value is empty."
            else getMsg e))
  /\ (forall e', getValue (T := T) n b = inl e' -> isFileParseError e' = true)
  /\ getValue (T := T) n false =
       inl (FileParseError (mFilePath n) (-1) (-1) (mValue n) (getMsg e)).
Proof.
  intros Hk He.
  assert (Hg : negb (isToken n) && negb (isString n) = false)
    by (destruct (isToken n), (isString n); simpl in *; congruence).
  repeat split.
  - unfold getValue. rewrite Hg, He.
    destruct (QStr.isEmpty (mValue n) && b); reflexivity.
  - intros e' H'. apply getValue_failure in H' as [m ->]. reflexivity.
  - unfold getValue. rewrite Hg, He, andb_false_r. reflexivity.
Qed.

(** C5 (as amended): getValueOfFirstChild fails with a FileParseError that
    carries the file path of the node, no offending text and the message
    that the node does not have children when the node has zero children;
    otherwise it is getValue applied to the child at index 0, value or
    failure alike. *)
Theorem getValueOfFirstChild_spec (n : SExpression) (b : bool) :
  (length (mChildren n) = 0%nat ->
   getValueOfFirstChild (T := T) n b =
     inl (FileParseError (mFilePath n) (-1) (-1) EmptyString
            "Node does not have children."))
  /\ (forall child0, nth_error (mChildren n) 0 = Some child0 ->
      getValueOfFirstChild (T := T) n b = getValue child0 b).
Proof.
  unfold getValueOfFirstChild. destruct (mChildren n) as [|c cs]; simpl; split.
  - reflexivity.
  - discriminate.
  - discriminate.
  - intros ? [= <-]. reflexivity.
Qed.

End GetValue.

Lemma getValue_not_token_or_string_witness :
  getValue (T := bool) sampleList true =
    inl (FileParseError sampleFile (-1) (-1) "symbol"
           "Node is not a token or string.").
Proof.
  exact (getValue_not_token_or_string (T := bool) sampleList true eq_refl eq_refl).
Defined.

(** C2 fails as stated: on a List node the RuntimeError raised for a node
    that is not a token or string does not reach the caller; what the
    caller receives is a FileParseError, and no RuntimeError at all. *)
Lemma getValue_structure_error_is_rewrapped :
  isToken sampleList = false /\ isString sampleList = false /\
  (exists fp l c t m,
     getValue (T := bool) sampleList false = inl (FileParseError fp l c t m)) /\
  ~ (exists msg, getValue (T := bool) sampleList false = inl (RuntimeError msg)).
Proof.
  repeat split.
  - exists sampleFile, (-1), (-1), "symbol", "Node is not a token or string.".
    reflexivity.
  - intros [msg H]. discriminate H.
Qed.

Lemma getValue_wraps_codec_failure_witness :
  getValue (T := bool) sampleBadBool false =
    inl (FileParseError sampleFile (-1) (-1) "maybe" "Not a valid boolean.").
Proof.
  exact (proj1 (getValue_wraps_codec_failure (T := bool) sampleBadBool false
                  (RuntimeError "Not a valid boolean.") eq_refl eq_refl)).
Defined.

(** C4 (as amended): for every Token node whose text is the empty string,
    getValue of a QString with throwIfEmpty set fails with a FileParseError
    that carries the file path of the node, the empty raw text and the
    message that the node value is empty; without throwIfEmpty it returns
    the empty string. *)
Theorem getValue_QString_empty_token (n : SExpression) :
  isToken n = true -> mValue n = EmptyString ->
  getValue (T := QString) n true =
    inl (FileParseError (mFilePath n) (-1) (-1) EmptyString "Node value is empty.")
  /\ getValue (T := QString) n false = inr EmptyString.
Proof.
  intros Ht Hv. unfold getValue. rewrite Ht, Hv. split; reflexivity.
Qed.

Lemma getValue_QString_empty_token_witness :
  getValue (T := QString) sampleEmptyToken true =
    inl (FileParseError sampleFile (-1) (-1) EmptyString "Node value is empty.")
  /\ getValue (T := QString) sampleEmptyToken false = inr EmptyString.
Proof.
  exact (getValue_QString_empty_token sampleEmptyToken eq_refl eq_refl).
Defined.

(** C4 fails as stated: on a Token with empty text and throwIfEmpty set, the
    RuntimeError for the empty value is caught inside getValue; the caller
    receives a FileParseError, and no RuntimeError at all. *)
Lemma getValue_empty_value_error_is_rewrapped :
  isToken sampleEmptyToken = true /\ mValue sampleEmptyToken = EmptyString /\
  (exists fp l c t m,
     getValue (T := QString) sampleEmptyToken true = inl (FileParseError fp l c t m)) /\
  ~ (exists msg, getValue (T := QString) sampleEmptyToken true = inl (RuntimeError msg)).
Proof.
  repeat split.
  - exists sampleFile, (-1), (-1), EmptyString, "Node value is empty.".
    reflexivity.
  - intros [msg H]. discriminate H.
Qed.

Lemma getValueOfFirstChild_spec_witness :
  getValueOfFirstChild (T := bool) sampleList false =
    inl (FileParseError sampleFile (-1) (-1) EmptyString
           "Node does not have children.")
  /\ getValueOfFirstChild (T := bool) sampleParent false = inr true.
Proof.
  split.
  - exact (proj1 (getValueOfFirstChild_spec (T := bool) sampleList false) eq_refl).
  - exact (proj2 (getValueOfFirstChild_spec (T := bool) sampleParent false)
             (mkSExpression Token "true" [] sampleFile) eq_refl).
Defined.

(** C5 fails as stated: on a node without children the failure is not a
    RuntimeError for the wrong shape but the FileParseError that
    getValueOfFirstChild throws itself. *)
Lemma getValueOfFirstChild_no_children_is_FileParseError :
  length (mChildren sampleList) = 0%nat /\
  (exists fp l c t m,
     getValueOfFirstChild (T := bool) sampleList false
       = inl (FileParseError fp l c t m)) /\
  ~ (exists msg,
       getValueOfFirstChild (T := bool) sampleList false = inl (RuntimeError msg)).
Proof.
  repeat split.
  - exists sampleFile, (-1), (-1), EmptyString, "Node does not have children.".
    reflexivity.
  - intros [msg H]. discriminate H.
Qed.

(* ===================================================================== *)
(** * Properties of the value codecs *)
(* ===================================================================== *)

(** C7: the codec of bool.  Deserialization returns true exactly on the
    text true, false exactly on the text false, and throws the RuntimeError
    saying that the text is not a valid boolean (the format error) on every
    other text; true and false serialize to the texts true and false. *)
Theorem bool_codec (s : QString) :
  (stringToObject (T := bool) s = inr true <-> s = "true")
  /\ (stringToObject (T := bool) s = inr false <-> s = "false")
  /\ (s <> "true" -> s <> "false" ->
      stringToObject (T := bool) s = inl (RuntimeError "Not a valid boolean."))
  /\ objectToString true = "true"
  /\ objectToString false = "false".
Proof.
  unfold stringToObject, stringToObject_bool, ret, throw, tr.
  destruct (QStr.eqb s "true") eqn:Et; [apply QStr_eqb_eq in Et | apply QStr_eqb_neq in Et].
  - subst s. simpl. repeat split; intros; congruence.
  - destruct (QStr.eqb s "false") eqn:Ef;
      [apply QStr_eqb_eq in Ef | apply QStr_eqb_neq in Ef].
    + subst s. repeat split; intros; congruence.
    + repeat split; intros; congruence.
Qed.

Lemma bool_codec_witness :
  stringToObject (T := bool) "maybe" = inl (RuntimeError "Not a valid boolean.")
  /\ stringToObject (T := bool) "true" = inr true
  /\ stringToObject (T := bool) "false" = inr false.
Proof.
  split; [|split].
  - apply (proj1 (proj2 (proj2 (bool_codec "maybe")))); discriminate.
  - apply (proj1 (bool_codec "true")). reflexivity.
  - apply (proj1 (proj2 (bool_codec "false"))). reflexivity.
Defined.

Section OptionalCodec.

Context {T : Type} {ser : SerializableObject T} {null : HasRepresentationOfNull T}.

(** C9: the text that equals the null text of T deserializes to the absent
    optional, whatever the deserializer of T is and whatever it would do on
    that text (accept it as a present value, or throw): the comparison
    comes first and the deserializer has no part in the result. *)
Theorem optional_null_text_has_priority (s : QString) :
  s = sRepresentationOfNull T ->
  stringToObject (T := option T) s = inr None.
Proof.
  intros ->. unfold stringToObject, stringToObject_optional.
  rewrite QStr_eqb_refl. reflexivity.
Qed.

Lemma stringToObject_optional_other (s : QString) :
  s <> sRepresentationOfNull T ->
  stringToObject (T := option T) s =
    match deserializeFromString s with
    | inl e => inl e
    | inr v => inr (Some v)
    end.
Proof.
  intros Hs. apply QStr_eqb_neq in Hs.
  unfold stringToObject, stringToObject_optional. rewrite Hs. reflexivity.
Qed.

(** C6 (as amended): the null text of T deserializes to the absent optional,
    the absent optional serializes to the null text, and a present value v
    comes back from deserialize after serialize exactly when its own text
    is not the null text and the codec of T itself brings v back from that
    text. *)
Theorem optional_codec :
  stringToObject (T := option T) (sRepresentationOfNull T) = ret None
  /\ objectToString (None : option T) = sRepresentationOfNull T
  /\ forall v : T,
       stringToObject (T := option T) (objectToString (Some v)) = ret (Some v)
       <-> (serializeToString v <> sRepresentationOfNull T
            /\ deserializeFromString (serializeToString v) = ret v).
Proof.
  split; [|split].
  - unfold stringToObject, stringToObject_optional.
    rewrite QStr_eqb_refl. reflexivity.
  - reflexivity.
  - intros v. unfold objectToString, objectToString_optional.
    unfold stringToObject, stringToObject_optional, ret.
    destruct (QStr.eqb (serializeToString v) (sRepresentationOfNull T)) eqn:E.
    + apply QStr_eqb_eq in E. split.
      * discriminate.
      * intros [Hne _]. contradiction.
    + apply QStr_eqb_neq in E. unfold bind, ret.
      destruct (deserializeFromString (serializeToString v)) as [e|v'].
      * split; [discriminate | intros [_ H]; discriminate].
      * split.
        -- intros [= ->]. auto.
        -- intros [_ [= ->]]. reflexivity.
Qed.

End OptionalCodec.

Lemma optional_null_text_has_priority_witness :
  deserializeFromString (T := Label) "none" = inr (mkLabel "none")
  /\ stringToObject (T := option Label) "none" = inr None.
Proof.
  split.
  - reflexivity.
  - exact (optional_null_text_has_priority (T := Label) "none" eq_refl).
Defined.

(** C6 fails as stated: Label has a null text, and the present Label whose
    text is that very word does not come back from deserialize after
    serialize; the absent optional comes back instead. *)
Lemma optional_codec_loses_null_text_value :
  stringToObject (T := option Label) (objectToString (Some (mkLabel "none")))
    = inr None
  /\ stringToObject (T := option Label) (objectToString (Some (mkLabel "none")))
    <> inr (Some (mkLabel "none")).
Proof.
  split; [reflexivity | discriminate].
Qed.

(** A type whose texts never are its null text: every present value comes
    back. *)
Example optional_codec_layer :
  stringToObject (T := option Layer) (objectToString (Some (mkLayer 3)))
    = ret (Some (mkLayer 3))
  /\ stringToObject (T := option Layer) (objectToString (None : option Layer))
    = ret None
  /\ stringToObject (T := option Layer) "top"
    = throw (RuntimeError "Not a valid layer.").
Proof. repeat split. Qed.

(* ===================================================================== *)
(** * Base-10 conversions *)
(* ===================================================================== *)

Lemma digitChar_isDigit (d : N) : (d < 10)%N -> QStr.isDigit (QStr.digitChar d) = true.
Proof.
  intros Hd. unfold QStr.isDigit, QStr.digitChar.
  rewrite N_ascii_embedding by lia.
  apply andb_true_iff. split; apply N.leb_le; lia.
Qed.

Lemma digitChar_value (d : N) : (d < 10)%N -> QStr.digitValue (QStr.digitChar d) = d.
Proof.
  intros Hd. unfold QStr.digitValue, QStr.digitChar.
  rewrite N_ascii_embedding by lia. lia.
Qed.

Lemma digitChar_zero (d : N) :
  (d < 10)%N -> Ascii.eqb (QStr.digitChar d) "0" = true -> d = 0%N.
Proof.
  intros Hd H. apply Ascii.eqb_eq in H.
  apply (f_equal QStr.digitValue) in H.
  rewrite digitChar_value in H by assumption. exact H.
Qed.

Lemma isDigit_not_space (c : ascii) : QStr.isDigit c = true -> QStr.isSpace c = false.
Proof.
  unfold QStr.isDigit, QStr.isSpace. intros H.
  apply andb_true_iff in H as [H1 H2]. apply N.leb_le in H1, H2.
  apply orb_false_iff. split.
  - apply N.eqb_neq. lia.
  - apply andb_false_iff. right. apply N.leb_gt. lia.
Qed.

Lemma isDigit_not_sign (c : ascii) :
  QStr.isDigit c = true -> Ascii.eqb c "-" = false /\ Ascii.eqb c "+" = false.
Proof.
  intros H. split; apply Ascii.eqb_neq; intros ->; discriminate H.
Qed.

Lemma append_assoc (a b c : string) : (a ++ b) ++ c = a ++ (b ++ c).
Proof.
  induction a as [|x a IH]; simpl; [reflexivity | now rewrite IH].
Qed.

Lemma append_nil_r (a : string) : a ++ EmptyString = a.
Proof.
  induction a as [|x a IH]; simpl; [reflexivity | now rewrite IH].
Qed.

Lemma allDigits_app (a b : string) :
  allDigits (a ++ b) = allDigits a && allDigits b.
Proof.
  induction a as [|c a IH]; simpl.
  - reflexivity.
  - rewrite IH. apply andb_assoc.
Qed.

(** Reading digits from the left agrees with place value. *)
Lemma readDigits_placeValue (s : string) (acc : N) :
  allDigits s = true ->
  QStr.readDigits s acc
    = Some (acc * 10 ^ N.of_nat (String.length s) + placeValue s)%N.
Proof.
  revert acc. induction s as [|c r IH]; intros acc H;
    cbn [QStr.readDigits placeValue allDigits String.length] in *.
  - f_equal. change (N.of_nat 0) with 0%N. rewrite N.pow_0_r. lia.
  - apply andb_true_iff in H as [Hc Hr]. rewrite Hc, IH by assumption.
    f_equal. rewrite Nat2N.inj_succ, N.pow_succ_r'. lia.
Qed.

Lemma readDigits_not_all_digits (s : string) (acc : N) :
  allDigits s = false -> QStr.readDigits s acc = None.
Proof.
  revert acc. induction s as [|c r IH]; intros acc H; simpl in *.
  - discriminate.
  - destruct (QStr.isDigit c); simpl in H; [apply IH; assumption | reflexivity].
Qed.

(** The digits written by [digitsOf] read back as the number, when the fuel
    covers its length. *)
Lemma readDigits_digitsOf (fuel : nat) :
  forall (n : N) (acc : string),
    (n < 10 ^ N.of_nat (S fuel))%N ->
    QStr.readDigits (QStr.digitsOf fuel n acc) 0 = QStr.readDigits acc n.
Proof.
  induction fuel as [|fuel IH]; intros n acc Hn.
  - change (10 ^ N.of_nat 1)%N with 10%N in Hn. simpl.
    rewrite N.mod_small by assumption.
    rewrite digitChar_isDigit, digitChar_value by assumption.
    reflexivity.
  - cbn [QStr.digitsOf]. destruct (n <? 10)%N eqn:E.
    + apply N.ltb_lt in E. simpl. rewrite N.mod_small by assumption.
      rewrite digitChar_isDigit, digitChar_value by assumption. reflexivity.
    + apply N.ltb_ge in E. rewrite IH.
      * cbn [QStr.readDigits].
        assert (Hm : (n mod 10 < 10)%N) by (apply N.mod_lt; lia).
        rewrite digitChar_isDigit, digitChar_value by assumption.
        f_equal. pose proof (N.div_mod n 10 ltac:(lia)). lia.
      * rewrite Nat2N.inj_succ, N.pow_succ_r' in Hn.
        apply N.Div0.div_lt_upper_bound. exact Hn.
Qed.

(** The shape of what [digitsOf] writes: digits only, in front of [acc], and
    no leading zero for a number that is not zero. *)
Lemma digitsOf_shape (fuel : nat) :
  forall (n : N) (acc : string),
    (n < 10 ^ N.of_nat (S fuel))%N ->
    exists c r,
      QStr.digitsOf fuel n acc = String c (r ++ acc)
      /\ QStr.isDigit c = true /\ allDigits r = true
      /\ (Ascii.eqb c "0" = true -> n = 0%N /\ r = EmptyString).
Proof.
  induction fuel as [|fuel IH]; intros n acc Hn.
  - change (10 ^ N.of_nat 1)%N with 10%N in Hn.
    exists (QStr.digitChar (n mod 10)), EmptyString. simpl.
    rewrite N.mod_small by assumption. repeat split.
    + apply digitChar_isDigit; assumption.
    + apply digitChar_zero; assumption.
  - cbn [QStr.digitsOf]. destruct (n <? 10)%N eqn:E.
    + apply N.ltb_lt in E.
      exists (QStr.digitChar (n mod 10)), EmptyString. simpl.
      rewrite N.mod_small by assumption. repeat split.
      * apply digitChar_isDigit; assumption.
      * apply digitChar_zero; assumption.
    + apply N.ltb_ge in E.
      assert (Hq : (n / 10 < 10 ^ N.of_nat (S fuel))%N).
      { rewrite Nat2N.inj_succ, N.pow_succ_r' in Hn.
        apply N.Div0.div_lt_upper_bound. exact Hn. }
      destruct (IH (n / 10)%N (String (QStr.digitChar (n mod 10)) acc) Hq)
        as (c & r & Heq & Hc & Hr & Hz).
      exists c, (r ++ String (QStr.digitChar (n mod 10)) EmptyString).
      assert (Hm : (n mod 10 < 10)%N) by (apply N.mod_lt; lia).
      repeat split.
      * rewrite Heq. f_equal. rewrite append_assoc. reflexivity.
      * exact Hc.
      * rewrite allDigits_app, Hr. simpl.
        rewrite digitChar_isDigit by assumption. reflexivity.
      * apply Hz in H. destruct H as [H0 _].
        assert (1 <= n / 10)%N by (apply N.div_le_lower_bound; lia). lia.
      * apply Hz in H. destruct H as [H0 _].
        assert (1 <= n / 10)%N by (apply N.div_le_lower_bound; lia). lia.
Qed.

Lemma numberN_fuel (n : N) : (n < 10 ^ N.of_nat (S (N.to_nat (N.log2 n))))%N.
Proof.
  rewrite Nat2N.inj_succ, N2Nat.id.
  destruct (N.eq_dec n 0) as [->|Hn].
  - reflexivity.
  - assert (H0 : (0 < n)%N) by lia.
    pose proof (N.log2_spec n H0) as [_ Hlt].
    eapply N.lt_le_trans; [exact Hlt|].
    apply N.pow_le_mono_l. lia.
Qed.

Lemma numberN_shape (n : N) :
  exists c r,
    QStr.numberN n = String c r
    /\ QStr.isDigit c = true /\ allDigits r = true
    /\ (Ascii.eqb c "0" = true -> n = 0%N /\ r = EmptyString).
Proof.
  destruct (digitsOf_shape _ n EmptyString (numberN_fuel n))
    as (c & r & Heq & Hc & Hr & Hz).
  exists c, r. rewrite append_nil_r in Heq. auto.
Qed.

Lemma numberN_allDigits (n : N) : allDigits (QStr.numberN n) = true.
Proof.
  destruct (numberN_shape n) as (c & r & -> & Hc & Hr & _).
  simpl. now rewrite Hc, Hr.
Qed.

Lemma numberN_canonical (n : N) : isCanonicalNatural (QStr.numberN n) = true.
Proof.
  destruct (numberN_shape n) as (c & r & -> & Hc & Hr & Hz).
  unfold isCanonicalNatural. rewrite Hc, Hr. simpl.
  destruct (Ascii.eqb c "0") eqn:E.
  - destruct (Hz eq_refl) as [_ ->]. reflexivity.
  - apply orb_true_r.
Qed.

Lemma numberN_placeValue (n : N) : placeValue (QStr.numberN n) = n.
Proof.
  pose proof (readDigits_digitsOf _ n EmptyString (numberN_fuel n)) as H.
  fold (QStr.numberN n) in H.
  rewrite readDigits_placeValue in H by apply numberN_allDigits.
  simpl in H. injection H as H. exact H.
Qed.

Lemma allDigits_skipSpaces (s : string) :
  allDigits s = true -> QStr.skipSpaces s = s.
Proof.
  destruct s as [|c r]; simpl; [reflexivity|].
  intros H. apply andb_true_iff in H as [Hc _].
  now rewrite (isDigit_not_space c Hc).
Qed.

Lemma allDigits_dropTrailingSpaces (s : string) :
  allDigits s = true -> QStr.dropTrailingSpaces s = s.
Proof.
  induction s as [|c r IH]; simpl; [reflexivity|].
  intros H. apply andb_true_iff in H as [Hc Hr].
  rewrite (isDigit_not_space c Hc). simpl. now rewrite IH.
Qed.

(** A run of at least one digit, and the same after a minus sign, is read as
    the number it denotes by place value. *)
Lemma readInteger_digits (ds : string) :
  allDigits ds = true -> ds <> EmptyString ->
  QStr.readInteger ds = Some (false, placeValue ds)
  /\ QStr.readInteger (String "-" ds) = Some (true, placeValue ds).
Proof.
  intros Hd Hne. split.
  - unfold QStr.readInteger.
    rewrite allDigits_skipSpaces, allDigits_dropTrailingSpaces by assumption.
    destruct ds as [|c r]; [congruence|].
    pose proof Hd as Hd'. simpl in Hd'. apply andb_true_iff in Hd' as [Hc _].
    destruct (isDigit_not_sign c Hc) as [-> ->].
    rewrite readDigits_placeValue by assumption. simpl. f_equal.
  - unfold QStr.readInteger.
    change (QStr.skipSpaces (String "-" ds)) with (String "-" ds).
    change (QStr.dropTrailingSpaces (String "-" ds))
      with (String "-"%char (QStr.dropTrailingSpaces ds)).
    rewrite allDigits_dropTrailingSpaces by assumption.
    change (Ascii.eqb "-" "-") with true. cbv iota.
    destruct ds as [|c r]; [congruence|].
    rewrite readDigits_placeValue by assumption. simpl. f_equal.
Qed.

Lemma isCanonicalNatural_digits (s : string) :
  isCanonicalNatural s = true -> allDigits s = true /\ s <> EmptyString.
Proof.
  destruct s as [|c r]; simpl; [discriminate|].
  intros H. apply andb_true_iff in H as [H _]. split; [exact H | discriminate].
Qed.

Lemma isCanonicalDecimal_cases (s : string) :
  isCanonicalDecimal s = true ->
  (isCanonicalNatural s = true /\ decimalValue s = Z.of_N (placeValue s))
  \/ (exists r, s = String "-" r /\ isCanonicalNatural r = true
                /\ r <> "0" /\ decimalValue s = - Z.of_N (placeValue r)).
Proof.
  intros H. destruct s as [|c r].
  - discriminate H.
  - destruct (Ascii.eqb c "-") eqn:E.
    + apply Ascii.eqb_eq in E. subst c. right. exists r.
      simpl in H. apply andb_true_iff in H as [H1 H2].
      apply negb_true_iff, String.eqb_neq in H2. auto.
    + left. apply Ascii.eqb_neq in E.
      assert (Hc : isCanonicalDecimal (String c r) = isCanonicalNatural (String c r)).
      { unfold isCanonicalDecimal.
        destruct c as [[] [] [] [] [] [] [] []]; try reflexivity. congruence. }
      assert (Hv : decimalValue (String c r) = Z.of_N (placeValue (String c r))).
      { unfold decimalValue.
        destruct c as [[] [] [] [] [] [] [] []]; try reflexivity. congruence. }
      rewrite Hc in H. auto.
Qed.

(** Canonical base-10 text of a number that fits an [int] converts to that
    number. *)
Lemma toInt_canonical (s : string) :
  isCanonicalDecimal s = true ->
  QStr.INT_MIN <= decimalValue s <= QStr.INT_MAX ->
  QStr.toInt s = (true, decimalValue s).
Proof.
  intros Hc Hr. unfold QStr.toInt.
  destruct (isCanonicalDecimal_cases s Hc) as [[Hn Hv] | (r & -> & Hn & _ & Hv)].
  - destruct (isCanonicalNatural_digits _ Hn) as [Hd Hne].
    rewrite (proj1 (readInteger_digits s Hd Hne)), <- Hv.
    destruct (Z.leb_spec QStr.INT_MIN (decimalValue s)); [|lia].
    destruct (Z.leb_spec (decimalValue s) QStr.INT_MAX); [|lia].
    reflexivity.
  - destruct (isCanonicalNatural_digits _ Hn) as [Hd Hne].
    rewrite (proj2 (readInteger_digits r Hd Hne)), <- Hv.
    destruct (Z.leb_spec QStr.INT_MIN (decimalValue (String "-" r))); [|lia].
    destruct (Z.leb_spec (decimalValue (String "-" r)) QStr.INT_MAX); [|lia].
    reflexivity.
Qed.

Lemma number_canonical (n : Z) :
  isCanonicalDecimal (QStr.number n) = true /\ decimalValue (QStr.number n) = n.
Proof.
  unfold QStr.number. destruct (Z.ltb_spec n 0) as [Hneg|Hpos].
  - split.
    + simpl. rewrite numberN_canonical. simpl.
      apply negb_true_iff, String.eqb_neq. intros H0.
      pose proof (numberN_placeValue (Z.to_N (- n))) as Hp.
      rewrite H0 in Hp. simpl in Hp. lia.
    + simpl. rewrite numberN_placeValue. lia.
  - destruct (numberN_shape (Z.to_N n)) as (c & r & Heq & Hc & Hr & _).
    destruct (isDigit_not_sign c Hc) as [Hm _]. apply Ascii.eqb_neq in Hm.
    assert (H1 : isCanonicalDecimal (QStr.numberN (Z.to_N n))
                 = isCanonicalNatural (QStr.numberN (Z.to_N n))).
    { rewrite Heq. unfold isCanonicalDecimal.
      destruct c as [[] [] [] [] [] [] [] []]; try reflexivity. congruence. }
    assert (H2 : decimalValue (QStr.numberN (Z.to_N n))
                 = Z.of_N (placeValue (QStr.numberN (Z.to_N n)))).
    { rewrite Heq. unfold decimalValue.
      destruct c as [[] [] [] [] [] [] [] []]; try reflexivity. congruence. }
    rewrite H1, H2, numberN_canonical, numberN_placeValue. split; [reflexivity | lia].
Qed.

Lemma isForeignChar_not_space (c : ascii) :
  QStr.isSpace c = true -> isForeignChar c = false.
Proof.
  intros H. unfold isForeignChar. rewrite H, orb_true_r. reflexivity.
Qed.

Lemma allSpaces_no_foreign (s : string) :
  QStr.allSpaces s = true -> hasForeignChar s = false.
Proof.
  induction s as [|c r IH]; simpl; [reflexivity|].
  intros H. apply andb_true_iff in H as [Hc Hr].
  now rewrite (isForeignChar_not_space c Hc), IH.
Qed.

Lemma hasForeignChar_skipSpaces (s : string) :
  hasForeignChar (QStr.skipSpaces s) = hasForeignChar s.
Proof.
  induction s as [|c r IH]; simpl; [reflexivity|].
  destruct (QStr.isSpace c) eqn:E.
  - now rewrite IH, (isForeignChar_not_space c E).
  - reflexivity.
Qed.

Lemma hasForeignChar_dropTrailingSpaces (s : string) :
  hasForeignChar (QStr.dropTrailingSpaces s) = hasForeignChar s.
Proof.
  induction s as [|c r IH]; [reflexivity|].
  cbn [QStr.dropTrailingSpaces].
  destruct (QStr.allSpaces (String c r)) eqn:E.
  - symmetry. now apply allSpaces_no_foreign.
  - simpl. now rewrite IH.
Qed.

Lemma hasForeignChar_not_digits (s : string) :
  hasForeignChar s = true -> allDigits s = false.
Proof.
  induction s as [|c r IH]; simpl; [discriminate|].
  intros H. apply orb_true_iff in H as [H|H].
  - unfold isForeignChar in H. apply negb_true_iff in H.
    repeat (apply orb_false_iff in H as [H _]). now rewrite H.
  - rewrite (IH H). apply andb_false_r.
Qed.

(** A text with a character that is neither digit, sign nor white space is
    not read as a number. *)
Lemma readInteger_foreign (s : string) :
  hasForeignChar s = true -> QStr.readInteger s = None.
Proof.
  intros H. unfold QStr.readInteger.
  rewrite <- hasForeignChar_skipSpaces, <- hasForeignChar_dropTrailingSpaces in H.
  destruct (QStr.dropTrailingSpaces (QStr.skipSpaces s)) as [|c r]; [reflexivity|].
  destruct (Ascii.eqb c "-") eqn:Em; [|destruct (Ascii.eqb c "+") eqn:Ep].
  - simpl in H. unfold isForeignChar in H. rewrite Em in H.
    rewrite orb_true_r in H. simpl in H.
    destruct r as [|c' r']; [reflexivity|].
    now rewrite readDigits_not_all_digits by now apply hasForeignChar_not_digits.
  - simpl in H. unfold isForeignChar in H. rewrite Ep in H.
    rewrite orb_true_r in H. simpl in H.
    destruct r as [|c' r']; [reflexivity|].
    now rewrite readDigits_not_all_digits by now apply hasForeignChar_not_digits.
  - now rewrite readDigits_not_all_digits by now apply hasForeignChar_not_digits.
Qed.

Lemma toInt_success_in_range (s : QString) (n : Z) :
  QStr.toInt s = (true, n) -> QStr.INT_MIN <= n <= QStr.INT_MAX.
Proof.
  unfold QStr.toInt. destruct (QStr.readInteger s) as [[negative magnitude]|];
    [|discriminate].
  set (v := if negative then - Z.of_N magnitude else Z.of_N magnitude).
  destruct (Z.leb_spec QStr.INT_MIN v); [|discriminate].
  destruct (Z.leb_spec v QStr.INT_MAX); [|discriminate].
  simpl. intros [= <-]. split; assumption.
Qed.

Lemma skipSpaces_split (s : string) :
  exists lead, s = lead ++ QStr.skipSpaces s /\ QStr.allSpaces lead = true.
Proof.
  induction s as [|c r IH].
  - exists EmptyString. split; reflexivity.
  - cbn [QStr.skipSpaces]. destruct (QStr.isSpace c) eqn:E.
    + destruct IH as (lead & Hs & Hl). exists (String c lead). split.
      * simpl. now rewrite <- Hs.
      * simpl. now rewrite E, Hl.
    + exists EmptyString. split; reflexivity.
Qed.

Lemma dropTrailingSpaces_split (s : string) :
  exists trail, s = QStr.dropTrailingSpaces s ++ trail /\ QStr.allSpaces trail = true.
Proof.
  induction s as [|c r IH].
  - exists EmptyString. split; reflexivity.
  - cbn [QStr.dropTrailingSpaces]. destruct (QStr.allSpaces (String c r)) eqn:E.
    + exists (String c r). split; [reflexivity | exact E].
    + destruct IH as (trail & Hs & Ht). exists trail. split; [|exact Ht].
      simpl. now rewrite <- Hs.
Qed.

Lemma skipSpaces_lead (lead x : string) :
  QStr.allSpaces lead = true -> QStr.skipSpaces (lead ++ x) = QStr.skipSpaces x.
Proof.
  induction lead as [|c r IH]; simpl; [reflexivity|].
  intros H. apply andb_true_iff in H as [Hc Hr]. rewrite Hc. now apply IH.
Qed.

Lemma dropTrailingSpaces_spaces (trail : string) :
  QStr.allSpaces trail = true -> QStr.dropTrailingSpaces trail = EmptyString.
Proof.
  destruct trail as [|c r]; [reflexivity|].
  intros H. cbn [QStr.dropTrailingSpaces]. now rewrite H.
Qed.

Lemma dropTrailingSpaces_digits (ds trail : string) :
  allDigits ds = true -> QStr.allSpaces trail = true ->
  QStr.dropTrailingSpaces (ds ++ trail) = ds.
Proof.
  intros Hd Ht. induction ds as [|c r IH].
  - simpl. now apply dropTrailingSpaces_spaces.
  - simpl in Hd. apply andb_true_iff in Hd as [Hc Hr].
    cbn [append QStr.dropTrailingSpaces QStr.allSpaces].
    rewrite (isDigit_not_space c Hc). cbn [andb]. now rewrite IH.
Qed.

Lemma readDigits_some (ds : string) (acc v : N) :
  QStr.readDigits ds acc = Some v -> allDigits ds = true.
Proof.
  intros H. destruct (allDigits ds) eqn:E; [reflexivity|].
  rewrite (readDigits_not_all_digits ds acc E) in H. discriminate H.
Qed.

Lemma readDigits_value (ds : string) (v : N) :
  QStr.readDigits ds 0 = Some v -> allDigits ds = true /\ v = placeValue ds.
Proof.
  intros H. pose proof (readDigits_some ds 0 v H) as Hd. split; [exact Hd|].
  rewrite (readDigits_placeValue ds 0 Hd) in H. simpl in H. congruence.
Qed.

(** A text that is put together as a valid integer is read as its sign and
    the place value of its digits. *)
Lemma readInteger_parts (lead sign digits trail : string) :
  QStr.allSpaces lead = true -> QStr.allSpaces trail = true ->
  sign = EmptyString \/ sign = "-" \/ sign = "+" ->
  digits <> EmptyString -> allDigits digits = true ->
  QStr.readInteger (lead ++ sign ++ digits ++ trail)
    = Some (String.eqb sign "-", placeValue digits).
Proof.
  intros Hl Ht Hs Hne Hd. unfold QStr.readInteger. rewrite (skipSpaces_lead _ _ Hl).
  destruct digits as [|c r]; [congruence|].
  pose proof Hd as Hd'. simpl in Hd'. apply andb_true_iff in Hd' as [Hc _].
  pose proof (isDigit_not_space c Hc) as Hsp.
  destruct (isDigit_not_sign c Hc) as [Hm Hp].
  destruct Hs as [-> | [-> | ->]].
  - cbn [append QStr.skipSpaces]. rewrite Hsp.
    change (String c (r ++ trail)) with (String c r ++ trail).
    rewrite (dropTrailingSpaces_digits _ _ Hd Ht), Hm, Hp.
    rewrite (readDigits_placeValue _ 0 Hd). simpl. repeat f_equal.
  - cbn [append]. change (QStr.skipSpaces (String "-" (String c (r ++ trail))))
      with (String "-"%char (String c (r ++ trail))).
    change (QStr.dropTrailingSpaces (String "-" (String c (r ++ trail))))
      with (String "-"%char (QStr.dropTrailingSpaces (String c r ++ trail))).
    rewrite (dropTrailingSpaces_digits _ _ Hd Ht).
    change (Ascii.eqb "-" "-") with true. cbv iota.
    rewrite (readDigits_placeValue _ 0 Hd). simpl. repeat f_equal.
  - cbn [append]. change (QStr.skipSpaces (String "+" (String c (r ++ trail))))
      with (String "+"%char (String c (r ++ trail))).
    change (QStr.dropTrailingSpaces (String "+" (String c (r ++ trail))))
      with (String "+"%char (QStr.dropTrailingSpaces (String c r ++ trail))).
    rewrite (dropTrailingSpaces_digits _ _ Hd Ht).
    change (Ascii.eqb "+" "-") with false. change (Ascii.eqb "+" "+") with true.
    cbv iota. rewrite (readDigits_placeValue _ 0 Hd). simpl. repeat f_equal.
Qed.

(** Whatever is read as a number is put together as a valid integer. *)
Lemma readInteger_sound (s : string) (negative : bool) (magnitude : N) :
  QStr.readInteger s = Some (negative, magnitude) ->
  exists lead sign digits trail : string,
    s = lead ++ sign ++ digits ++ trail
    /\ QStr.allSpaces lead = true /\ QStr.allSpaces trail = true
    /\ (sign = EmptyString \/ sign = "-" \/ sign = "+")
    /\ digits <> EmptyString /\ allDigits digits = true
    /\ String.eqb sign "-" = negative /\ placeValue digits = magnitude.
Proof.
  unfold QStr.readInteger. intros H.
  destruct (skipSpaces_split s) as (lead & Hs & Hl).
  destruct (dropTrailingSpaces_split (QStr.skipSpaces s)) as (trail & Hu & Ht).
  destruct (QStr.dropTrailingSpaces (QStr.skipSpaces s)) as [|c r] eqn:E;
    [discriminate H|].
  destruct (Ascii.eqb c "-") eqn:Em; [|destruct (Ascii.eqb c "+") eqn:Ep].
  - apply Ascii.eqb_eq in Em. subst c. destruct r as [|c' r']; [discriminate H|].
    destruct (QStr.readDigits (String c' r') 0) as [v|] eqn:Er; [|discriminate H].
    simpl in H. injection H as <- <-.
    destruct (readDigits_value _ _ Er) as [Hd ->].
    exists lead, "-", (String c' r'), trail. rewrite Hs at 1. rewrite Hu.
    repeat split; auto; discriminate.
  - apply Ascii.eqb_eq in Ep. subst c. destruct r as [|c' r']; [discriminate H|].
    destruct (QStr.readDigits (String c' r') 0) as [v|] eqn:Er; [|discriminate H].
    simpl in H. injection H as <- <-.
    destruct (readDigits_value _ _ Er) as [Hd ->].
    exists lead, "+", (String c' r'), trail. rewrite Hs at 1. rewrite Hu.
    repeat split; auto; discriminate.
  - destruct (QStr.readDigits (String c r) 0) as [v|] eqn:Er; [|discriminate H].
    simpl in H. injection H as <- <-.
    destruct (readDigits_value _ _ Er) as [Hd ->].
    exists lead, EmptyString, (String c r), trail. rewrite Hs at 1. rewrite Hu.
    repeat split; auto; discriminate.
Qed.

(** The conversion succeeds exactly on the valid integers that fit an
    [int], and gives the number they denote. *)
Lemma toInt_spec (s : string) (n : Z) :
  QStr.toInt s = (true, n)
  <-> (denotesInteger s n /\ QStr.INT_MIN <= n <= QStr.INT_MAX).
Proof.
  split.
  - intros H. pose proof (toInt_success_in_range s n H) as Hr.
    split; [|exact Hr]. unfold QStr.toInt in H.
    destruct (QStr.readInteger s) as [[negative magnitude]|] eqn:E; [|discriminate H].
    destruct (readInteger_sound s negative magnitude E)
      as (lead & sign & digits & trail & Hs & Hl & Ht & Hsg & Hne & Hd & Hn & Hm).
    exists lead, sign, digits, trail. repeat split; try assumption.
    rewrite Hn, Hm.
    destruct ((QStr.INT_MIN <=? (if negative then - Z.of_N magnitude else Z.of_N magnitude))
              && ((if negative then - Z.of_N magnitude else Z.of_N magnitude)
                  <=? QStr.INT_MAX)); [|discriminate H].
    now injection H as <-.
  - intros [(lead & sign & digits & trail & -> & Hl & Ht & Hsg & Hne & Hd & Hn) Hr].
    unfold QStr.toInt. rewrite (readInteger_parts _ _ _ _ Hl Ht Hsg Hne Hd).
    rewrite <- Hn.
    destruct (Z.leb_spec QStr.INT_MIN n); [|lia].
    destruct (Z.leb_spec n QStr.INT_MAX); [|lia]. reflexivity.
Qed.

Lemma stringToObject_int_spec (s : QString) (n : Z) :
  stringToObject (T := int) s = inr n
  <-> (denotesInteger s n /\ QStr.INT_MIN <= n <= QStr.INT_MAX).
Proof.
  rewrite <- toInt_spec. unfold stringToObject, stringToObject_int, ret, throw.
  destruct (QStr.toInt s) as [[] v]; split; congruence.
Qed.

(** C8: the codec of int.  The text written for any int n is the canonical
    base-10 text of n (a sign only for negative numbers, digits without
    leading zero, place value n) and reads back as n; every canonical
    base-10 text of a number that fits an int deserializes to that number.
    Deserialization returns n exactly when the text is a valid integer
    (digits after an optional sign, white space around them allowed) that
    denotes n and n fits an int; on every other text, be it empty, a lone
    sign, digits with something between or after them, or a number out of
    range, it throws the RuntimeError saying that the text is not a valid
    integer (the format error), and it fails in no other way; and -7, 42
    and 4a behave as the specification lists them. *)
Theorem int_codec :
  (forall n : int,
     isCanonicalDecimal (objectToString n) = true
     /\ decimalValue (objectToString n) = n
     /\ (QStr.INT_MIN <= n <= QStr.INT_MAX ->
         stringToObject (T := int) (objectToString n) = inr n))
  /\ (forall s : QString,
        isCanonicalDecimal s = true ->
        QStr.INT_MIN <= decimalValue s <= QStr.INT_MAX ->
        stringToObject (T := int) s = inr (decimalValue s))
  /\ (forall s : QString,
        hasForeignChar s = true ->
        stringToObject (T := int) s = inl (RuntimeError "Not a valid integer."))
  /\ (forall s : QString,
        (exists n, stringToObject (T := int) s = inr n)
        \/ stringToObject (T := int) s = inl (RuntimeError "Not a valid integer."))
  /\ objectToString (-7 : int) = "-7"
  /\ stringToObject (T := int) "42" = inr 42
  /\ stringToObject (T := int) "4a" = inl (RuntimeError "Not a valid integer.")
  /\ (forall (s : QString) (n : int),
        stringToObject (T := int) s = inr n
        <-> (denotesInteger s n /\ QStr.INT_MIN <= n <= QStr.INT_MAX))
  /\ (forall s : QString,
        ~ (exists n, denotesInteger s n /\ QStr.INT_MIN <= n <= QStr.INT_MAX) ->
        stringToObject (T := int) s = inl (RuntimeError "Not a valid integer."))
  /\ Forall (fun s : QString =>
               stringToObject (T := int) s
                 = inl (RuntimeError "Not a valid integer."))
       [EmptyString; " "; "-"; "+"; "1 2"; "--1"; "1-2"; "+-3"; "12-";
        "2147483648"; "-2147483649"].
Proof.
  assert (Hcanon : forall s : QString,
             isCanonicalDecimal s = true ->
             QStr.INT_MIN <= decimalValue s <= QStr.INT_MAX ->
             stringToObject (T := int) s = inr (decimalValue s)).
  { intros s Hc Hr. unfold stringToObject, stringToObject_int.
    now rewrite (toInt_canonical s Hc Hr). }
  assert (Hcases : forall s : QString,
             (exists n, stringToObject (T := int) s = inr n)
             \/ stringToObject (T := int) s = inl (RuntimeError "Not a valid integer.")).
  { intros s. unfold stringToObject, stringToObject_int.
    destruct (QStr.toInt s) as [[] v]; [left; exists v|right]; reflexivity. }
  split; [|split; [|split; [|split; [|split; [|split; [|split; [|split; [|split]]]]]]]].
  - intros n. unfold objectToString, objectToString_int.
    destruct (number_canonical n) as [Hc Hv]. repeat split; try assumption.
    intros Hr. rewrite (Hcanon _ Hc); [now rewrite Hv | now rewrite Hv].
  - exact Hcanon.
  - intros s Hf. unfold stringToObject, stringToObject_int, QStr.toInt.
    now rewrite (readInteger_foreign s Hf).
  - exact Hcases.
  - reflexivity.
  - reflexivity.
  - reflexivity.
  - exact stringToObject_int_spec.
  - intros s Hno. destruct (Hcases s) as [[n Hn] | Hf]; [|exact Hf].
    exfalso. apply Hno. exists n. now apply stringToObject_int_spec.
  - repeat constructor.
Qed.

Lemma int_codec_witness :
  stringToObject (T := int) (objectToString (-7 : int)) = inr (-7)
  /\ stringToObject (T := int) "2147483647" = inr 2147483647
  /\ stringToObject (T := int) "4a" = inl (RuntimeError "Not a valid integer.").
Proof.
  split; [|split].
  - apply (proj1 int_codec (-7)). unfold QStr.INT_MIN, QStr.INT_MAX. lia.
  - apply (proj1 (proj2 int_codec) "2147483647").
    + reflexivity.
    + vm_compute. split; discriminate.
  - apply (proj1 (proj2 (proj2 int_codec)) "4a"). reflexivity.
Defined.

(* ===================================================================== *)
(** * Properties of the append methods *)
(* ===================================================================== *)

Lemma nth_error_middle {A : Type} (l t : list A) (x : A) :
  nth_error (l ++ x :: t) (length l) = Some x.
Proof.
  induction l as [|h l IH]; simpl; [reflexivity | exact IH].
Qed.

Lemma replaceNth_middle {A : Type} (l t : list A) (x y : A) :
  replaceNth (l ++ x :: t) (length l) y = (l ++ y :: t)%list.
Proof.
  induction l as [|h l IH]; simpl; [reflexivity | now rewrite IH].
Qed.

(** On a List, appendChild appends and hands back the reference to the
    child. *)
Lemma appendChild_list (n child : SExpression) (linebreak : bool) :
  isList n = true ->
  appendChild n child linebreak
    = ret (setChildren n
             (mChildren n ++ child :: (if linebreak then [createLineBreak] else [])),
           [length (mChildren n)]).
Proof. intros H. unfold appendChild. now rewrite H. Qed.

(** On any other node it fails, and so does every method built on it. *)
Lemma appendChild_not_list (n child : SExpression) (linebreak : bool) :
  isList n = false ->
  appendChild n child linebreak = throw (RuntimeError "Node is not a list.").
Proof. intros H. unfold appendChild. now rewrite H. Qed.

Lemma isList_setChildren (n : SExpression) (children : list SExpression) :
  isList (setChildren n children) = isList n.
Proof. reflexivity. Qed.

Section Append.

Context {T : Type} {codec : ObjectToString T}.

(** C10 (as amended): on every List node, appendToken and appendString leave
    the node with exactly one more child, a Token respectively a String
    without children of its own that holds the serialized text of the
    value, placed after all the children the node had; nothing else of the
    node changes; and the reference they return designates the node itself.
    The reference returned by appendList is another one: it designates the
    child list that was just created, a child of the node. *)
Theorem append_methods_return (n : SExpression) (v : T) (name : QString)
  (linebreak : bool) :
  isList n = true ->
  (exists n',
     appendToken n v = ret (n', thisRef)
     /\ n' = mkSExpression (mType n) (mValue n)
               (mChildren n ++ [mkSExpression Token (objectToString v) [] noFilePath])
               (mFilePath n)
     /\ resolve n' thisRef = Some n')
  /\ (exists n',
        appendString n v = ret (n', thisRef)
        /\ n' = mkSExpression (mType n) (mValue n)
                  (mChildren n ++ [mkSExpression String_ (objectToString v) [] noFilePath])
                  (mFilePath n)
        /\ resolve n' thisRef = Some n')
  /\ (exists n' r,
        appendList n name linebreak = ret (n', r)
        /\ r = [length (mChildren n)]
        /\ r <> thisRef
        /\ resolve n' r = Some (mkSExpression List_ name [] noFilePath)
        /\ nth_error (mChildren n') (length (mChildren n))
           = Some (mkSExpression List_ name [] noFilePath)
        /\ firstn (length (mChildren n)) (mChildren n') = mChildren n).
Proof.
  intros Hl. split; [|split].
  - eexists. unfold appendToken. rewrite (appendChild_list n _ false Hl).
    repeat split.
  - eexists. unfold appendString. rewrite (appendChild_list n _ false Hl).
    repeat split.
  - eexists. eexists. unfold appendList.
    rewrite (appendChild_list n _ linebreak Hl). split; [reflexivity|].
    cbn [mChildren setChildren resolve]. rewrite nth_error_middle.
    repeat split; try discriminate.
    rewrite firstn_app, firstn_all, Nat.sub_diag. simpl. apply app_nil_r.
Qed.

(** What the difference means for a chained call: the token of
    appendTokenChild lands inside the new child list, not in the node. *)
Lemma appendTokenChild_spec (n : SExpression) (child : QString) (v : T)
  (linebreak : bool) :
  isList n = true ->
  appendTokenChild n child v linebreak
    = ret (setChildren n
             (mChildren n
                ++ mkSExpression List_ child
                     [mkSExpression Token (objectToString v) [] noFilePath] noFilePath
                :: (if linebreak then [createLineBreak] else [])),
           [length (mChildren n)]).
Proof.
  intros Hl. unfold appendTokenChild, appendList.
  rewrite (appendChild_list n _ linebreak Hl).
  cbn [bind ret fst snd callAt mChildren setChildren].
  rewrite nth_error_middle. cbn [callAt].
  unfold appendToken. rewrite appendChild_list by reflexivity.
  cbn [bind ret fst snd mChildren setChildren createList app].
  now rewrite replaceNth_middle.
Qed.

Lemma appendStringChild_spec (n : SExpression) (child : QString) (v : T)
  (linebreak : bool) :
  isList n = true ->
  appendStringChild n child v linebreak
    = ret (setChildren n
             (mChildren n
                ++ mkSExpression List_ child
                     [mkSExpression String_ (objectToString v) [] noFilePath] noFilePath
                :: (if linebreak then [createLineBreak] else [])),
           [length (mChildren n)]).
Proof.
  intros Hl. unfold appendStringChild, appendList.
  rewrite (appendChild_list n _ linebreak Hl).
  cbn [bind ret fst snd callAt mChildren setChildren].
  rewrite nth_error_middle. cbn [callAt].
  unfold appendString. rewrite appendChild_list by reflexivity.
  cbn [bind ret fst snd mChildren setChildren createList app].
  now rewrite replaceNth_middle.
Qed.

End Append.

Lemma append_methods_return_witness :
  (exists n',
     appendToken sampleList true = ret (n', thisRef)
     /\ n' = mkSExpression List_ "symbol"
               [mkSExpression Token "true" [] noFilePath] sampleFile
     /\ resolve n' thisRef = Some n')
  /\ (exists n' r,
        appendList sampleList "pin" true = ret (n', r)
        /\ r = [0%nat]
        /\ resolve n' r = Some (mkSExpression List_ "pin" [] noFilePath)).
Proof.
  pose proof (append_methods_return (T := bool) sampleList true "pin" true eq_refl)
    as (Ht & _ & (n' & r & H1 & H2 & _ & H3 & _)).
  split; [exact Ht|]. exists n', r. auto.
Defined.

(** C10 fails as stated: a Token node is a node, and appendToken on it
    appends no child and returns no reference; it fails, because only List
    nodes have children. *)
Lemma appendToken_on_token_fails :
  isList sampleBadBool = false
  /\ (exists e, appendToken sampleBadBool true = inl e)
  /\ (exists e, appendString sampleBadBool true = inl e)
  /\ ~ (exists n' r, appendToken sampleBadBool true = inr (n', r)).
Proof.
  repeat split.
  - eexists. reflexivity.
  - eexists. reflexivity.
  - intros (n' & r & H). discriminate H.
Qed.

(* ===================================================================== *)
(** * Reading rendered text: the lexer *)
(* ===================================================================== *)

Lemma emit_app (l : sexpresso.Lexeme) (ls : list sexpresso.Lexeme)
  (r : option (list sexpresso.Lexeme)) :
  sexpresso.emit l (option_map (app ls) r) = option_map (app (l :: ls)) r.
Proof. destruct r; reflexivity. Qed.

Lemma option_map_app_nil {A : Type} (r : option (list A)) :
  option_map (app []) r = r.
Proof. destruct r; reflexivity. Qed.

Lemma option_map_app_app {A : Type} (l1 l2 : list A) (r : option (list A)) :
  option_map (app l1) (option_map (app l2) r) = option_map (app (l1 ++ l2)) r.
Proof. destruct r; simpl; [now rewrite app_assoc | reflexivity]. Qed.

Lemma lex_skip_spaces (w s : string) :
  QStr.allSpaces w = true ->
  sexpresso.lex sexpresso.Idle (w ++ s) = sexpresso.lex sexpresso.Idle s.
Proof.
  induction w as [|c w IH]; simpl; [reflexivity|].
  intros H. apply andb_true_iff in H as [Hc Hw]. rewrite Hc. now apply IH.
Qed.

Lemma lex_token_run (s : string) :
  forall (t rest : string),
    allTokenChars s = true ->
    sexpresso.lex (sexpresso.InToken t) (s ++ rest)
      = sexpresso.lex (sexpresso.InToken (t ++ s)) rest.
Proof.
  induction s as [|c s IH]; intros t rest H.
  - simpl. now rewrite append_nil_r.
  - simpl in H. apply andb_true_iff in H as [Hc Hs]. apply negb_true_iff in Hc.
    cbn [append sexpresso.lex]. rewrite Hc, IH by assumption.
    unfold sexpresso.snoc. now rewrite append_assoc.
Qed.

Lemma lex_token_end (t rest : string) :
  delimited rest = true ->
  sexpresso.lex (sexpresso.InToken t) rest
    = sexpresso.emit (sexpresso.Atom false t) (sexpresso.lex sexpresso.Idle rest).
Proof.
  destruct rest as [|c r]; intros H.
  - reflexivity.
  - simpl in H. cbn [sexpresso.lex]. now rewrite H.
Qed.

Lemma not_delimiter (c : ascii) :
  isDelimiter c = false ->
  QStr.isSpace c = false /\ Ascii.eqb c "(" = false
  /\ Ascii.eqb c ")" = false /\ Ascii.eqb c quoteChar = false.
Proof.
  unfold isDelimiter. intros H.
  apply orb_false_iff in H as [H H4]. apply orb_false_iff in H as [H H3].
  apply orb_false_iff in H as [H1 H2]. auto.
Qed.

(** A valid token in front of a delimiter is read as one unquoted atom. *)
Lemma lex_bare_run (v rest : string) :
  negb (QStr.isEmpty v) && allTokenChars v = true ->
  delimited rest = true ->
  sexpresso.lex sexpresso.Idle (v ++ rest)
    = sexpresso.emit (sexpresso.Atom false v) (sexpresso.lex sexpresso.Idle rest).
Proof.
  intros Hv Hd. apply andb_true_iff in Hv as [Hne Hall].
  destruct v as [|c s]; [discriminate Hne|].
  simpl in Hall. apply andb_true_iff in Hall as [Hc Hs]. apply negb_true_iff in Hc.
  destruct (not_delimiter c Hc) as (H1 & H2 & H3 & H4).
  cbn [append sexpresso.lex]. rewrite H1, H2, H3, H4.
  rewrite lex_token_run by assumption. now apply lex_token_end.
Qed.

(** Escaped text up to the closing quote is read back as the text. *)
Lemma lex_escaped (v : string) :
  forall (t rest : string),
    sexpresso.lex (sexpresso.InString t) (escapeString v ++ String quoteChar rest)
      = sexpresso.emit (sexpresso.Atom true (t ++ v))
          (sexpresso.lex sexpresso.Idle rest).
Proof.
  induction v as [|c v IH]; intros t rest.
  - simpl. now rewrite append_nil_r.
  - cbn [escapeString]. rewrite append_assoc. unfold escapeChar.
    destruct (Ascii.eqb c quoteChar) eqn:Eq;
      [|destruct (Ascii.eqb c backslashChar) eqn:Eb;
        [|destruct (Ascii.eqb c newlineChar) eqn:En]].
    + apply Ascii.eqb_eq in Eq. subst c.
      cbn [append sexpresso.lex]. simpl Ascii.eqb. cbv iota.
      rewrite IH. unfold sexpresso.snoc. now rewrite append_assoc.
    + apply Ascii.eqb_eq in Eb. subst c.
      cbn [append sexpresso.lex]. simpl Ascii.eqb. cbv iota.
      rewrite IH. unfold sexpresso.snoc. now rewrite append_assoc.
    + apply Ascii.eqb_eq in En. subst c.
      cbn [append sexpresso.lex]. simpl Ascii.eqb. cbv iota.
      rewrite IH. unfold sexpresso.snoc. now rewrite append_assoc.
    + cbn [append sexpresso.lex]. rewrite Eq, Eb, IH.
      unfold sexpresso.snoc. now rewrite append_assoc.
Qed.

Lemma indentation_allSpaces (level : nat) : QStr.allSpaces (indentation level) = true.
Proof. induction level as [|l IH]; simpl; [reflexivity | exact IH]. Qed.

Lemma allSpaces_app (a b : string) :
  QStr.allSpaces (a ++ b) = QStr.allSpaces a && QStr.allSpaces b.
Proof.
  induction a as [|c a IH]; simpl; [reflexivity | now rewrite IH, andb_assoc].
Qed.

Lemma lineBreakText_allSpaces (afterBreak nextIsBreak : bool) (level : nat) :
  QStr.allSpaces (lineBreakText afterBreak nextIsBreak level) = true.
Proof.
  unfold lineBreakText. rewrite !allSpaces_app.
  destruct afterBreak, nextIsBreak; simpl; try reflexivity;
    apply indentation_allSpaces.
Qed.

Lemma isLineBreak_lexemesOf (c : SExpression) :
  isLineBreak c = true -> lexemesOf c = [].
Proof.
  destruct c as [[] v cs fp]; unfold isLineBreak; simpl; intros H;
    try discriminate H; reflexivity.
Qed.

(** The text of the children of a list always starts with a delimiter when
    it follows content, so the name and every bare run before it ends. *)
Lemma renderChildren_delimited (render : SExpression -> QString) (indent : nat)
  (children : list SExpression) (rest : string) :
  delimited rest = true ->
  delimited (renderChildren render indent children false ++ rest) = true.
Proof.
  intros H. destruct children as [|c cs]; simpl; [exact H|].
  destruct (isLineBreak c); reflexivity.
Qed.

(** Without a LineBreak child, all children are inline: each follows a
    single space. *)
Lemma renderChildren_single_line (render : SExpression -> QString) (indent : nat)
  (children : list SExpression) :
  existsb isLineBreak children = false ->
  renderChildren render indent children false
    = fold_right (fun c text => String " " (render c ++ text)) EmptyString children.
Proof.
  induction children as [|c cs IH]; simpl; [reflexivity|].
  intros H. apply orb_false_iff in H as [Hc Hcs]. now rewrite Hc, IH.
Qed.

Lemma toString_single_line (name : QString) (children : list SExpression)
  (fp : FilePath) (indent : nat) :
  isMultiLineList (mkSExpression List_ name children fp) = false ->
  toString (mkSExpression List_ name children fp) indent
    = String "(" (name
        ++ fold_right (fun c text => String " " (toString c (S indent) ++ text))
             EmptyString children
        ++ ")").
Proof.
  unfold isMultiLineList. simpl. intros H.
  now rewrite renderChildren_single_line.
Qed.

Section RenderedChildren.

Variable render : SExpression -> QString.
Variable indent : nat.

Lemma lex_renderChildren (children : list SExpression) :
  Forall (readsBack render) children ->
  forallb wellFormed children = true ->
  forall (afterBreak : bool) (rest : string),
    delimited rest = true ->
    sexpresso.lex sexpresso.Idle
      (renderChildren render indent children afterBreak ++ rest)
      = option_map (app (flat_map lexemesOf children))
          (sexpresso.lex sexpresso.Idle rest).
Proof.
  induction 1 as [|c cs Hc _ IH]; intros Hwf afterBreak rest Hd.
  - simpl. now rewrite option_map_app_nil.
  - simpl in Hwf. apply andb_true_iff in Hwf as [Hwc Hwcs].
    cbn [renderChildren flat_map]. destruct (isLineBreak c) eqn:E.
    + rewrite append_assoc, lex_skip_spaces by apply lineBreakText_allSpaces.
      rewrite IH by assumption. now rewrite (isLineBreak_lexemesOf c E).
    + rewrite !append_assoc.
      rewrite lex_skip_spaces by (destruct afterBreak; reflexivity).
      rewrite (Hc Hwc) by now apply renderChildren_delimited.
      rewrite IH by assumption. apply option_map_app_app.
Qed.

End RenderedChildren.

(** The rendered text of a well-formed tree, in front of a delimiter, is
    read as the lexemes of the tree. *)
Lemma lex_toString (n : SExpression) :
  wellFormed n = true ->
  forall (indent : nat) (rest : string),
    delimited rest = true ->
    sexpresso.lex sexpresso.Idle (toString n indent ++ rest)
      = option_map (app (lexemesOf n)) (sexpresso.lex sexpresso.Idle rest).
Proof.
  induction n as [t v children fp IH] using SExpression_tree_ind.
  intros Hwf indent rest Hd. destruct t.
  - (* List *)
    cbn [wellFormed] in Hwf. apply andb_true_iff in Hwf as [Hname Hcs].
    cbn [toString lexemesOf append sexpresso.lex].
    change (QStr.isSpace "(") with false. change (Ascii.eqb "(" "(") with true.
    cbv iota. rewrite !append_assoc.
    rewrite lex_bare_run;
      [|exact Hname | now apply renderChildren_delimited].
    rewrite (lex_renderChildren (fun c => toString c (S indent)) indent children).
    + cbn [append sexpresso.lex].
      change (QStr.isSpace ")") with false. change (Ascii.eqb ")" "(") with false.
      change (Ascii.eqb ")" ")") with true. cbv iota.
      destruct (sexpresso.lex sexpresso.Idle rest) as [ls|]; simpl; [|reflexivity].
      now rewrite <- app_assoc.
    + eapply Forall_impl; [|exact IH].
      intros c Hc Hwc rest' Hd'. now apply Hc.
    + exact Hcs.
    + reflexivity.
  - (* Token *)
    cbn [wellFormed] in Hwf. apply andb_true_iff in Hwf as [Hv _].
    cbn [toString lexemesOf]. rewrite lex_bare_run by assumption.
    now destruct (sexpresso.lex sexpresso.Idle rest).
  - (* String *)
    cbn [toString lexemesOf append sexpresso.lex].
    change (QStr.isSpace quoteChar) with false.
    change (Ascii.eqb quoteChar "(") with false.
    change (Ascii.eqb quoteChar ")") with false.
    change (Ascii.eqb quoteChar quoteChar) with true. cbv iota.
    rewrite append_assoc. cbn [append]. rewrite lex_escaped.
    now destruct (sexpresso.lex sexpresso.Idle rest).
  - (* LineBreak *)
    cbn [toString lexemesOf append]. now rewrite option_map_app_nil.
Qed.

(* ===================================================================== *)
(** * Reading rendered text: structure and classification *)
(* ===================================================================== *)

Lemma structure_children (children : list SExpression) :
  Forall (fun c =>
            isLineBreak c = false ->
            forall lexemes stack current,
              sexpresso.structure (lexemesOf c ++ lexemes) stack current
                = sexpresso.structure lexemes stack (sexpOf c :: current))
         children ->
  forall lexemes stack current,
    sexpresso.structure (flat_map lexemesOf children ++ lexemes) stack current
      = sexpresso.structure lexemes stack
          (rev (contentOf sexpOf children) ++ current).
Proof.
  induction 1 as [|c cs Hc _ IH]; intros lexemes stack current.
  - reflexivity.
  - cbn [flat_map contentOf]. rewrite <- app_assoc.
    destruct (isLineBreak c) eqn:E.
    + rewrite (isLineBreak_lexemesOf c E). simpl. apply IH.
    + rewrite (Hc eq_refl), IH. simpl. now rewrite <- app_assoc.
Qed.

(** The lexemes of a tree are put together as its generic expression. *)
Lemma structure_lexemesOf (n : SExpression) :
  isLineBreak n = false ->
  forall lexemes stack current,
    sexpresso.structure (lexemesOf n ++ lexemes) stack current
      = sexpresso.structure lexemes stack (sexpOf n :: current).
Proof.
  induction n as [t v children fp IH] using SExpression_tree_ind.
  intros Hn lexemes stack current. destruct t; try reflexivity.
  - cbn [lexemesOf sexpOf app sexpresso.structure].
    rewrite <- app_assoc, (structure_children children IH).
    cbn [app sexpresso.structure].
    now rewrite rev_app_distr, rev_involutive.
  - discriminate Hn.
Qed.

Lemma mapResult_children (filePath : FilePath) (children : list SExpression) :
  Forall (fun c =>
            wellFormed c = true -> isLineBreak c = false ->
            fromSexp (sexpOf c) filePath
              = inr (withFilePath filePath (removeLineBreaks c)))
         children ->
  forallb wellFormed children = true ->
  mapResult (fun item => fromSexp item filePath) (contentOf sexpOf children)
    = inr (map (withFilePath filePath) (stripChildren removeLineBreaks children)).
Proof.
  induction 1 as [|c cs Hc _ IH]; intros Hwf.
  - reflexivity.
  - simpl in Hwf. apply andb_true_iff in Hwf as [Hwc Hwcs].
    cbn [contentOf stripChildren]. destruct (isLineBreak c) eqn:E.
    + now apply IH.
    + cbn [mapResult map]. rewrite (Hc Hwc eq_refl), (IH Hwcs). reflexivity.
Qed.

Lemma isNil_true {A : Type} (l : list A) : isNil l = true -> l = [].
Proof. destruct l; [reflexivity | discriminate]. Qed.

(** The generic expression of a well-formed tree is classified as the tree
    without its LineBreak markers, stamped with the file path. *)
Lemma fromSexp_sexpOf (filePath : FilePath) (n : SExpression) :
  wellFormed n = true -> isLineBreak n = false ->
  fromSexp (sexpOf n) filePath = inr (withFilePath filePath (removeLineBreaks n)).
Proof.
  induction n as [t v children fp IH] using SExpression_tree_ind.
  intros Hwf Hn. destruct t.
  - cbn [wellFormed] in Hwf. apply andb_true_iff in Hwf as [_ Hcs].
    cbn [sexpOf fromSexp removeLineBreaks withFilePath].
    now rewrite (mapResult_children filePath children IH Hcs).
  - cbn [wellFormed] in Hwf. apply andb_true_iff in Hwf as [_ Hnil].
    apply isNil_true in Hnil. subst children. reflexivity.
  - cbn [wellFormed] in Hwf. apply isNil_true in Hwf. subst children. reflexivity.
  - discriminate Hn.
Qed.

(** Parsing the rendered text of a well-formed tree that is not itself a
    LineBreak gives the tree without its LineBreak markers, stamped with the
    file path. *)
Lemma parse_toString (n : SExpression) (indent : nat) (filePath : FilePath) :
  wellFormed n = true -> isLineBreak n = false ->
  parse (toString n indent) filePath
    = inr (withFilePath filePath (removeLineBreaks n)).
Proof.
  intros Hwf Hn. unfold parse, sexpresso.parse.
  rewrite <- (append_nil_r (toString n indent)).
  rewrite (lex_toString n Hwf indent EmptyString eq_refl).
  cbn [sexpresso.lex option_map].
  rewrite (structure_lexemesOf n Hn). cbn [sexpresso.structure rev app].
  now apply fromSexp_sexpOf.
Qed.

Lemma stripChildren_no_line_break (children : list SExpression) :
  Forall (fun c => hasNoLineBreak c = true -> removeLineBreaks c = c) children ->
  forallb hasNoLineBreak children = true ->
  stripChildren removeLineBreaks children = children.
Proof.
  induction 1 as [|c cs Hc _ IH]; intros H.
  - reflexivity.
  - simpl in H. apply andb_true_iff in H as [H1 H2].
    cbn [stripChildren]. rewrite (Hc H1), (IH H2).
    destruct c as [t v ch fp]. simpl in H1. apply andb_true_iff in H1 as [H1 _].
    unfold isLineBreak. simpl. apply negb_true_iff in H1. now rewrite H1.
Qed.

(** Nothing is stripped from a tree built only from List, Token and String
    nodes. *)
Lemma removeLineBreaks_no_line_break (n : SExpression) :
  hasNoLineBreak n = true -> removeLineBreaks n = n.
Proof.
  induction n as [t v children fp IH] using SExpression_tree_ind.
  intros H. simpl in H. apply andb_true_iff in H as [_ H].
  cbn [removeLineBreaks]. now rewrite (stripChildren_no_line_break children IH H).
Qed.

Lemma NodeType_eqb_refl (t : NodeType) : NodeType_eqb t t = true.
Proof. destruct t; reflexivity. Qed.

(** Stamping a file path does not change a tree for structural comparison. *)
Lemma deepEquals_withFilePath (filePath : FilePath) (n : SExpression) :
  deepEquals (withFilePath filePath n) n = true.
Proof.
  induction n as [t v children fp IH] using SExpression_tree_ind.
  cbn [withFilePath deepEquals].
  rewrite NodeType_eqb_refl, String.eqb_refl. simpl.
  induction IH as [|c cs Hc _ IHcs]; simpl; [reflexivity|].
  now rewrite Hc, IHcs.
Qed.

Lemma NodeType_eqb_eq (a b : NodeType) : NodeType_eqb a b = true <-> a = b.
Proof. destruct a, b; simpl; split; congruence. Qed.

(** Structural comparison is equality of the trees once the file paths are
    forgotten. *)
Lemma deepEquals_spec (a : SExpression) :
  forall b : SExpression,
    deepEquals a b = true <-> withFilePath noFilePath a = withFilePath noFilePath b.
Proof.
  induction a as [ta va ca fa IH] using SExpression_tree_ind.
  intros [tb vb cb fb]. cbn [deepEquals withFilePath].
  assert (Hcs : forall cb',
             forall2b deepEquals ca cb' = true
             <-> map (withFilePath noFilePath) ca = map (withFilePath noFilePath) cb').
  { clear cb. induction IH as [|c cs Hc _ IHcs]; intros [|c' cs']; simpl;
      try (split; congruence).
    rewrite andb_true_iff, Hc, IHcs. split.
    - intros [-> ->]. reflexivity.
    - intros [= -> ->]. auto. }
  rewrite !andb_true_iff, NodeType_eqb_eq, String.eqb_eq, Hcs. split.
  - intros [[-> ->] ->]. reflexivity.
  - intros [= -> -> ->]. auto.
Qed.

(** The layout of a list with a LineBreak child: the content after the
    marker is on a second line, one level deeper than the line of the list;
    without the marker the list is on one line. *)
Example toString_multi_line :
  let l := mkSExpression List_ "root"
             [createToken "x"; createLineBreak; createToken "y"] noFilePath in
  toString l 0 = "(root x" ++ String newlineChar " y)"
  /\ toString (removeLineBreaks l) 0 = "(root x y)"
  /\ parse (toString l 0) sampleFile
     = inr (withFilePath sampleFile (removeLineBreaks l)).
Proof. repeat split. Qed.

(** Malformed input is a FileParseError. *)
Example parse_malformed :
  isFileParseError_result (parse "(a (b" sampleFile) = true
  /\ isFileParseError_result (parse "()" sampleFile) = true
  /\ isFileParseError_result (parse "(a) (b)" sampleFile) = true
  /\ isFileParseError_result
       (parse (String "(" (String "a" (String " " (String quoteChar "b"))))
          sampleFile) = true.
Proof. repeat split. Qed.

(** C1: for every tree T built only from List, Token and String nodes (each
    as the data model has it: a valid name, a valid token, children only in
    lists), every indentation level and every file path, parsing the
    rendered text of T succeeds, and the tree it yields deep-equals T; it is
    T itself, stamped with the file path. *)
Theorem parse_toString_round_trip (T : SExpression) (indent : nat)
  (filePath : FilePath) :
  wellFormed T = true -> hasNoLineBreak T = true ->
  parse (toString T indent) filePath = inr (withFilePath filePath T)
  /\ exists T', parse (toString T indent) filePath = inr T'
                /\ deepEquals T' T = true.
Proof.
  intros Hwf Hno.
  assert (Hroot : isLineBreak T = false).
  { destruct T as [t v ch fp]. simpl in Hno.
    apply andb_true_iff in Hno as [Hno _]. apply negb_true_iff in Hno. exact Hno. }
  assert (Hp : parse (toString T indent) filePath = inr (withFilePath filePath T)).
  { rewrite (parse_toString T indent filePath Hwf Hroot).
    now rewrite (removeLineBreaks_no_line_break T Hno). }
  split; [exact Hp|].
  exists (withFilePath filePath T). split; [exact Hp|].
  apply deepEquals_withFilePath.
Qed.

Lemma parse_toString_round_trip_witness :
  parse (toString sampleTree 0) sampleFile = inr (withFilePath sampleFile sampleTree).
Proof.
  exact (proj1 (parse_toString_round_trip sampleTree 0 sampleFile eq_refl eq_refl)).
Defined.

(* ===================================================================== *)
(** * Further properties of the typed accessors *)
(* ===================================================================== *)

Section Accessors.

Context {T : Type} {codec : StringToObject T}.

(** X1: getValue never lets anything but a FileParseError out, whatever the
    node and the codec: every failure carries the file path of the node,
    line and column -1 and the raw value of the node, and its message is
    that of one of the three throws inside the try block. *)
Theorem getValue_only_throws_FileParseError (n : SExpression) (b : bool)
  (e : Exception) :
  getValue (T := T) n b = inl e ->
  exists m,
    e = FileParseError (mFilePath n) (-1) (-1) (mValue n) m
    /\ ((isToken n || isString n = false
         /\ m = "Node is not a token or string.")
        \/ (isToken n || isString n = true
            /\ QStr.isEmpty (mValue n) && b = true
            /\ m = "Node value is empty.")
        \/ (isToken n || isString n = true
            /\ exists e0, stringToObject (mValue n) = inl e0 /\ m = getMsg e0)).
Proof.
  unfold getValue, try_catch, throw, tr.
  destruct (isToken n), (isString n); simpl;
    try (destruct (QStr.isEmpty (mValue n) && b) eqn:Eb;
         [| destruct (stringToObject (mValue n)) as [e0|v] eqn:Es]);
    intros [= <-]; eexists; (split; [reflexivity|]); eauto 8.
Qed.

(** X2: throwIfEmpty never changes a value that is returned; it turns
    exactly the successes on an empty text into failures. *)
Theorem getValue_throwIfEmpty_rejects_only_empty (n : SExpression) (v : T) :
  getValue n true = inr v
  <-> (getValue n false = inr v /\ mValue n <> EmptyString).
Proof.
  rewrite !getValue_success, !andb_true_r, !andb_false_r.
  split.
  - intros (Hk & He & Hv). repeat split; try assumption.
    intros H0. rewrite H0 in He. discriminate He.
  - intros ((Hk & _ & Hv) & Hne). repeat split; try assumption.
    destruct (mValue n); [congruence | reflexivity].
Qed.

Lemma getValueOfFirstChild_failure (n : SExpression) (b : bool) (e : Exception) :
  getValueOfFirstChild (T := T) n b = inl e -> isFileParseError e = true.
Proof.
  unfold getValueOfFirstChild. destruct (mChildren n) as [|c cs].
  - intros [= <-]. reflexivity.
  - intros H. destruct (getValue_failure c b e H) as [m ->]. reflexivity.
Qed.

(** X4: getValueOfFirstChild fails with nothing but a FileParseError, and
    the error tells where: on a node without children it carries the file
    path of the node and no offending text; otherwise it is the failure of
    getValue on the first child and carries the file path and the raw value
    of that child. *)
Theorem getValueOfFirstChild_failure_location (n : SExpression) (b : bool)
  (e : Exception) :
  getValueOfFirstChild (T := T) n b = inl e ->
  (mChildren n = []
   /\ e = FileParseError (mFilePath n) (-1) (-1) EmptyString
            "Node does not have children.")
  \/ (exists child0 rest m,
        mChildren n = child0 :: rest
        /\ getValue (T := T) child0 b = inl e
        /\ e = FileParseError (mFilePath child0) (-1) (-1) (mValue child0) m).
Proof.
  unfold getValueOfFirstChild. destruct (mChildren n) as [|c cs].
  - intros [= <-]. left. split; reflexivity.
  - intros H. right. destruct (getValue_failure c b e H) as [m ->].
    exists c, cs, m. repeat split. exact H.
Qed.

(** X5: when the first child is not a value (a nested List, or the LineBreak
    of a list that starts with a forced break), getValueOfFirstChild fails:
    the later children are not looked at, and the error carries the file
    path and the value of that first child. *)
Theorem getValueOfFirstChild_first_child_not_a_value (n child0 : SExpression)
  (rest : list SExpression) (b : bool) :
  mChildren n = child0 :: rest ->
  isToken child0 = false -> isString child0 = false ->
  getValueOfFirstChild (T := T) n b
    = inl (FileParseError (mFilePath child0) (-1) (-1) (mValue child0)
             "Node is not a token or string.").
Proof.
  intros Hc Ht Hs. unfold getValueOfFirstChild. rewrite Hc.
  unfold getValue. rewrite Ht, Hs. reflexivity.
Qed.

(** X6: getValueByPath has no handler of its own.  A failure of the path
    resolution reaches the caller as it is, whatever its class; once the
    path resolves, the result is that of getValueOfFirstChild on the
    resolved node, so every other failure is a FileParseError. *)
Theorem getValueByPath_propagation
  (getChildByPath : SExpression -> QString -> Result SExpression)
  (n : SExpression) (path : QString) (b : bool) :
  (forall e, getChildByPath n path = inl e ->
             getValueByPath (T := T) getChildByPath n path b = inl e)
  /\ (forall child, getChildByPath n path = inr child ->
                    getValueByPath (T := T) getChildByPath n path b
                      = getValueOfFirstChild child b)
  /\ (forall e, getValueByPath (T := T) getChildByPath n path b = inl e ->
                getChildByPath n path = inl e \/ isFileParseError e = true).
Proof.
  unfold getValueByPath, bind. destruct (getChildByPath n path) as [e0|child].
  - repeat split; try congruence. intros e H. left. congruence.
  - repeat split; try congruence. intros e H. right.
    exact (getValueOfFirstChild_failure child b e H).
Qed.

End Accessors.

Lemma getValue_only_throws_FileParseError_witness :
  exists m,
    FileParseError sampleFile (-1) (-1) "maybe" "Not a valid boolean."
      = FileParseError (mFilePath sampleBadBool) (-1) (-1) (mValue sampleBadBool) m
    /\ ((isToken sampleBadBool || isString sampleBadBool = false
         /\ m = "Node is not a token or string.")
        \/ (isToken sampleBadBool || isString sampleBadBool = true
            /\ QStr.isEmpty (mValue sampleBadBool) && false = true
            /\ m = "Node value is empty.")
        \/ (isToken sampleBadBool || isString sampleBadBool = true
            /\ exists e0, stringToObject (T := bool) (mValue sampleBadBool) = inl e0
                          /\ m = getMsg e0)).
Proof.
  exact (getValue_only_throws_FileParseError (T := bool) sampleBadBool false
           (FileParseError sampleFile (-1) (-1) "maybe" "Not a valid boolean.")
           eq_refl).
Defined.

Lemma getValueOfFirstChild_failure_location_witness :
  (mChildren sampleList = []
   /\ FileParseError sampleFile (-1) (-1) EmptyString "Node does not have children."
      = FileParseError (mFilePath sampleList) (-1) (-1) EmptyString
          "Node does not have children.")
  \/ (exists child0 rest m,
        mChildren sampleList = child0 :: rest
        /\ getValue (T := bool) child0 true
           = inl (FileParseError sampleFile (-1) (-1) EmptyString
                    "Node does not have children.")
        /\ FileParseError sampleFile (-1) (-1) EmptyString
             "Node does not have children."
           = FileParseError (mFilePath child0) (-1) (-1) (mValue child0) m).
Proof.
  exact (getValueOfFirstChild_failure_location (T := bool) sampleList true
           (FileParseError sampleFile (-1) (-1) EmptyString
              "Node does not have children.") eq_refl).
Defined.

Lemma getValueOfFirstChild_first_child_not_a_value_witness :
  getValueOfFirstChild (T := bool) sampleLeadingBreak false
    = inl (FileParseError sampleFile (-1) (-1) EmptyString
             "Node is not a token or string.").
Proof.
  exact (getValueOfFirstChild_first_child_not_a_value (T := bool)
           sampleLeadingBreak (mkSExpression LineBreak EmptyString [] sampleFile)
           [mkSExpression Token "true" [] sampleFile] false
           eq_refl eq_refl eq_refl).
Defined.

(** X3: on every Token or String node, getValue of a QString is the raw text
    of the node, unchanged: it cannot fail without throwIfEmpty, fails with
    it only on the empty text, and never returns anything else. *)
Theorem getValue_QString_is_raw_text (n : SExpression) :
  isToken n || isString n = true ->
  getValue (T := QString) n false = inr (mValue n)
  /\ (mValue n <> EmptyString -> getValue (T := QString) n true = inr (mValue n))
  /\ (forall b v, getValue (T := QString) n b = inr v -> v = mValue n).
Proof.
  intros Hk. repeat split.
  - apply getValue_success. rewrite andb_false_r. repeat split. exact Hk.
  - intros Hne. apply getValue_success. repeat split; [exact Hk|].
    destruct (mValue n); [congruence | reflexivity].
  - intros b v H. apply getValue_success in H as (_ & _ & H).
    unfold stringToObject, stringToObject_QString, ret in H. congruence.
Qed.

Lemma getValue_QString_is_raw_text_witness :
  getValue (T := QString) sampleBadBool false = inr "maybe"
  /\ getValue (T := QString) sampleBadBool true = inr "maybe".
Proof.
  split.
  - exact (proj1 (getValue_QString_is_raw_text sampleBadBool eq_refl)).
  - apply (proj1 (proj2 (getValue_QString_is_raw_text sampleBadBool eq_refl))).
    discriminate.
Defined.

(** X7: the four kind predicates are exclusive and exhaustive: on every node
    exactly the one that names the type of the node is true. *)
Theorem node_kind_predicates (n : SExpression) :
  (isList n = true /\ isToken n = false /\ isString n = false
   /\ isLineBreak n = false /\ getType n = List_)
  \/ (isList n = false /\ isToken n = true /\ isString n = false
      /\ isLineBreak n = false /\ getType n = Token)
  \/ (isList n = false /\ isToken n = false /\ isString n = true
      /\ isLineBreak n = false /\ getType n = String_)
  \/ (isList n = false /\ isToken n = false /\ isString n = false
      /\ isLineBreak n = true /\ getType n = LineBreak).
Proof.
  unfold isList, isToken, isString, isLineBreak, getType.
  destruct (mType n); simpl; intuition.
Qed.

(* ===================================================================== *)
(** * Further properties of the value codecs *)
(* ===================================================================== *)

(** X8: the codec of bool is a bijection between the two values and the two
    texts it accepts: a value comes back from its text, and a text that is
    accepted is the text written for the value it gives. *)
Theorem bool_codec_round_trip :
  (forall b : bool, stringToObject (T := bool) (objectToString b) = ret b)
  /\ (forall (s : QString) (b : bool),
        stringToObject (T := bool) s = ret b -> objectToString b = s).
Proof.
  split.
  - intros []; reflexivity.
  - intros s b. unfold stringToObject, stringToObject_bool, ret, throw.
    destruct (QStr.eqb s "true") eqn:Et.
    + apply QStr_eqb_eq in Et. intros [= <-]. now subst s.
    + destruct (QStr.eqb s "false") eqn:Ef; [|discriminate].
      apply QStr_eqb_eq in Ef. intros [= <-]. now subst s.
Qed.

Lemma toInt_in_range (s : QString) (n : Z) :
  QStr.toInt s = (true, n) -> QStr.INT_MIN <= n <= QStr.INT_MAX.
Proof.
  unfold QStr.toInt. destruct (QStr.readInteger s) as [[negative magnitude]|];
    [|discriminate].
  set (v := if negative then - Z.of_N magnitude else Z.of_N magnitude).
  destruct (Z.leb_spec QStr.INT_MIN v); [|discriminate].
  destruct (Z.leb_spec v QStr.INT_MAX); [|discriminate].
  simpl. intros [= <-]. split; assumption.
Qed.

(** X9: a value that the codec of int reads from a text, however the text
    is written (with a plus sign, leading zeros or white space around it),
    fits an int, and the text written for that value reads back as the same
    value. *)
Theorem int_decode_in_range_and_stable (s : QString) (n : int) :
  stringToObject (T := int) s = ret n ->
  QStr.INT_MIN <= n <= QStr.INT_MAX
  /\ stringToObject (T := int) (objectToString n) = ret n.
Proof.
  unfold stringToObject, stringToObject_int, ret, throw.
  destruct (QStr.toInt s) as [[] v] eqn:E; [|discriminate].
  intros [= <-]. pose proof (toInt_in_range s v E) as Hr. split; [exact Hr|].
  unfold objectToString, objectToString_int.
  destruct (number_canonical v) as [Hc Hv].
  rewrite (toInt_canonical (QStr.number v) Hc); rewrite Hv; [reflexivity | exact Hr].
Qed.

Lemma int_decode_in_range_and_stable_witness :
  QStr.INT_MIN <= 42 <= QStr.INT_MAX
  /\ stringToObject (T := int) (objectToString (42 : int)) = ret (42 : int).
Proof.
  exact (int_decode_in_range_and_stable "  +042 " 42 eq_refl).
Defined.

(** X10: the text written for an int is never empty, and two ints have the
    same text only when they are the same number. *)
Theorem int_text_injective (n m : int) :
  objectToString n <> EmptyString
  /\ (objectToString n = objectToString m <-> n = m).
Proof.
  unfold objectToString, objectToString_int. split.
  - intros H. destruct (number_canonical n) as [Hc _].
    rewrite H in Hc. discriminate Hc.
  - split; [|now intros ->].
    intros H. destruct (number_canonical n) as [_ Hn].
    destruct (number_canonical m) as [_ Hm]. congruence.
Qed.

Lemma numberN_not_empty (n : N) : QStr.numberN n <> EmptyString.
Proof.
  destruct (numberN_shape n) as (c & r & -> & _). discriminate.
Qed.

Lemma toUInt_numberN (n : N) :
  (n <= QStr.UINT_MAX)%N -> QStr.toUInt (QStr.numberN n) = (true, n).
Proof.
  intros Hn. unfold QStr.toUInt.
  rewrite (proj1 (readInteger_digits _ (numberN_allDigits n) (numberN_not_empty n))).
  rewrite numberN_placeValue. simpl.
  destruct (N.leb_spec n QStr.UINT_MAX); [reflexivity | lia].
Qed.

Lemma readInteger_minus (r : string) :
  QStr.readInteger (String "-" r) = None
  \/ exists v, QStr.readInteger (String "-" r) = Some (true, v).
Proof.
  unfold QStr.readInteger.
  change (QStr.skipSpaces (String "-" r)) with (String "-" r).
  change (QStr.dropTrailingSpaces (String "-" r))
    with (String "-"%char (QStr.dropTrailingSpaces r)).
  change (Ascii.eqb "-" "-") with true. cbv iota.
  destruct (QStr.dropTrailingSpaces r) as [|c r']; [now left|].
  destruct (QStr.readDigits (String c r') 0) as [v|]; simpl; [right; eauto | now left].
Qed.

(** X11: the codec of uint.  Every number up to the largest uint comes back
    from the text written for it; a value that is read never exceeds the
    largest uint; and a text that starts with a minus sign is refused,
    whatever follows, with the RuntimeError for an invalid unsigned
    integer. *)
Theorem uint_codec :
  (forall n : uint,
     (n <= QStr.UINT_MAX)%N ->
     stringToObject (T := uint) (objectToString n) = ret n)
  /\ (forall (s : QString) (n : uint),
        stringToObject (T := uint) s = ret n -> (n <= QStr.UINT_MAX)%N)
  /\ (forall r : QString,
        stringToObject (T := uint) (String "-" r)
          = throw (RuntimeError "Not a valid unsigned integer.")).
Proof.
  split; [|split].
  - intros n Hn. unfold stringToObject, stringToObject_uint.
    unfold objectToString, objectToString_uint.
    now rewrite (toUInt_numberN n Hn).
  - intros s n. unfold stringToObject, stringToObject_uint, QStr.toUInt, ret, throw.
    destruct (QStr.readInteger s) as [[negative magnitude]|]; [|discriminate].
    destruct negative; simpl; [discriminate|].
    destruct (N.leb_spec magnitude QStr.UINT_MAX); [|discriminate].
    now intros [= <-].
  - intros r. unfold stringToObject, stringToObject_uint, QStr.toUInt.
    destruct (readInteger_minus r) as [-> | [v ->]]; reflexivity.
Qed.

Lemma uint_codec_witness :
  stringToObject (T := uint) (objectToString (4294967295%N : uint))
    = ret (4294967295%N : uint)
  /\ stringToObject (T := uint) "-1"
     = throw (RuntimeError "Not a valid unsigned integer.").
Proof.
  split.
  - apply (proj1 uint_codec 4294967295%N). unfold QStr.UINT_MAX. lia.
  - exact (proj2 (proj2 uint_codec) "1").
Defined.

Section OptionalDecode.

Context {T : Type} {ser : SerializableObject T} {null : HasRepresentationOfNull T}.

(** X12: what deserializing a text as an optional gives is decided by the
    comparison with the null text alone: absent exactly for the null text;
    a present value exactly when the text is another one and the
    deserializer of T returns that value; and a failure exactly when the
    text is another one and the deserializer of T throws, in which case the
    exception is the one it threw, unchanged. *)
Theorem optional_decode_cases (s : QString) :
  (stringToObject (T := option T) s = ret None <-> s = sRepresentationOfNull T)
  /\ (forall v : T,
        stringToObject (T := option T) s = ret (Some v)
        <-> (s <> sRepresentationOfNull T /\ deserializeFromString s = ret v))
  /\ (forall e : Exception,
        stringToObject (T := option T) s = throw e
        <-> (s <> sRepresentationOfNull T /\ deserializeFromString s = throw e)).
Proof.
  unfold stringToObject, stringToObject_optional, bind, ret, throw.
  destruct (QStr.eqb s (sRepresentationOfNull T)) eqn:E.
  - apply QStr_eqb_eq in E. repeat split; try congruence; intros [? ?]; congruence.
  - apply QStr_eqb_neq in E.
    destruct (deserializeFromString s) as [e0|v0]; repeat split;
      try congruence; try (intros [? ?]; congruence); intros [= <-]; auto.
Qed.

(** X13: reading an optional from a Token or String node whose text is the
    null text of T gives the absent value, unless the null text is the
    empty text and throwIfEmpty is set: the empty check comes before the
    codec, so getValue then fails for the empty value. *)
Theorem getValue_optional_null_text (n : SExpression) :
  isToken n || isString n = true ->
  mValue n = sRepresentationOfNull T ->
  getValue (T := option T) n false = ret None
  /\ (sRepresentationOfNull T <> EmptyString ->
      getValue (T := option T) n true = ret None)
  /\ (sRepresentationOfNull T = EmptyString ->
      getValue (T := option T) n true
        = throw (FileParseError (mFilePath n) (-1) (-1) EmptyString
                   "Node value is empty.")).
Proof.
  intros Hk Hv.
  assert (Hg : negb (isToken n) && negb (isString n) = false)
    by (destruct (isToken n), (isString n); simpl in *; congruence).
  assert (Hs : stringToObject (T := option T) (mValue n) = inr None).
  { unfold stringToObject, stringToObject_optional.
    now rewrite Hv, QStr_eqb_refl. }
  unfold getValue. rewrite Hg, Hs. repeat split.
  - now rewrite andb_false_r.
  - intros Hne. rewrite Hv. destruct (sRepresentationOfNull T); [congruence|].
    reflexivity.
  - intros He. rewrite Hv, He. reflexivity.
Qed.

End OptionalDecode.

Lemma getValue_optional_null_text_witness :
  getValue (T := option Label) sampleNullToken false = ret None
  /\ getValue (T := option Label) sampleNullToken true = ret None.
Proof.
  split.
  - exact (proj1 (getValue_optional_null_text (T := Label) sampleNullToken
                    eq_refl eq_refl)).
  - apply (proj1 (proj2 (getValue_optional_null_text (T := Label) sampleNullToken
                           eq_refl eq_refl))).
    discriminate.
Defined.

(* ===================================================================== *)
(** * Writing a value and reading it back *)
(* ===================================================================== *)

Section AppendThenRead.

Context {T : Type} {enc : ObjectToString T} {dec : StringToObject T}.

(** X14: on a List node, appendTokenChild and appendStringChild chain
    appendList with appendToken respectively appendString through the
    reference appendList returns.  The node gets one new child list of the
    given name (and the LineBreak of a forced break); the Token
    respectively String with the serialized text is the only child of that
    new list, not a child of the node; and the reference returned
    designates the new list.  On a node that is not a List both fail with
    the failure of appendList, and appendToken respectively appendString is
    never reached. *)
Theorem append_child_methods (n : SExpression) (child : QString) (v : T)
  (linebreak : bool) :
  let tokenList :=
    mkSExpression List_ child
      [mkSExpression Token (objectToString v) [] noFilePath] noFilePath in
  let stringList :=
    mkSExpression List_ child
      [mkSExpression String_ (objectToString v) [] noFilePath] noFilePath in
  let break := if linebreak then [createLineBreak] else [] in
  (isList n = true ->
   exists nt ns r,
     appendTokenChild n child v linebreak = ret (nt, r)
     /\ appendStringChild n child v linebreak = ret (ns, r)
     /\ r <> thisRef
     /\ nt = setChildren n (mChildren n ++ tokenList :: break)
     /\ ns = setChildren n (mChildren n ++ stringList :: break)
     /\ resolve nt r = Some tokenList
     /\ resolve ns r = Some stringList)
  /\ (isList n = false ->
      appendTokenChild n child v linebreak = appendList n child linebreak
      /\ appendStringChild n child v linebreak = appendList n child linebreak
      /\ exists e, appendList n child linebreak = throw e).
Proof.
  intros tokenList stringList break. split.
  - intros Hl.
    exists (setChildren n (mChildren n ++ tokenList :: break)),
           (setChildren n (mChildren n ++ stringList :: break)),
           [length (mChildren n)].
    rewrite (appendTokenChild_spec n child v linebreak Hl).
    rewrite (appendStringChild_spec n child v linebreak Hl).
    cbn [mChildren setChildren resolve]. rewrite !nth_error_middle.
    repeat split. discriminate.
  - intros Hl. unfold appendTokenChild, appendStringChild, appendList.
    rewrite (appendChild_not_list n _ linebreak Hl).
    repeat split. eexists. reflexivity.
Qed.

(** X15: what getValueOfFirstChild reads after appendToken or appendString
    on a List node.  If the node already has children nothing changes: the
    new child goes to the end and the first child is read as before.  If it
    has none the appended value is read back, whenever the codec of T
    brings the value back from its text and the empty check lets the text
    pass. *)
Theorem append_then_getValueOfFirstChild (n : SExpression) (v : T) (b : bool) :
  isList n = true ->
  exists nt ns,
    appendToken n v = ret (nt, thisRef)
    /\ appendString n v = ret (ns, thisRef)
    /\ (mChildren n <> [] ->
        getValueOfFirstChild (T := T) nt b = getValueOfFirstChild n b
        /\ getValueOfFirstChild (T := T) ns b = getValueOfFirstChild n b)
    /\ (mChildren n = [] ->
        stringToObject (objectToString v) = ret v ->
        QStr.isEmpty (objectToString v) && b = false ->
        getValueOfFirstChild nt b = ret v
        /\ getValueOfFirstChild ns b = ret v).
Proof.
  intros Hl. eexists. eexists.
  unfold appendToken, appendString. rewrite !(appendChild_list n _ false Hl).
  split; [reflexivity|]. split; [reflexivity|].
  unfold getValueOfFirstChild. cbn [fst mChildren setChildren]. split.
  - intros Hne. destruct (mChildren n) as [|c cs]; [congruence|]. split; reflexivity.
  - intros -> Hrt He. cbn [app]. unfold getValue, createToken, createString.
    cbn [isToken isString mType mValue NodeType_eqb negb andb].
    rewrite He, Hrt. split; reflexivity.
Qed.

(** X16: a value written with appendTokenChild on a List node is read back
    from the list the returned reference designates: getValueOfFirstChild
    on that list gives the value, and so does getValueByPath on the node
    for any path resolution that resolves the name to that list; provided
    the codec of T brings the value back from its text and the empty check
    lets the text pass. *)
Theorem appendTokenChild_then_read (n : SExpression) (child : QString) (v : T)
  (linebreak b : bool) :
  isList n = true ->
  stringToObject (objectToString v) = ret v ->
  QStr.isEmpty (objectToString v) && b = false ->
  exists (n' : SExpression) (r : Ref) (c : SExpression),
    appendTokenChild n child v linebreak = ret (n', r)
    /\ resolve n' r = Some c
    /\ getValueOfFirstChild c b = ret v
    /\ forall getChildByPath : SExpression -> QString -> Result SExpression,
         getChildByPath n' child = ret c ->
         getValueByPath getChildByPath n' child b = ret v.
Proof.
  intros Hl Hrt He.
  assert (Hread : getValueOfFirstChild
                    (mkSExpression List_ child
                       [mkSExpression Token (objectToString v) [] noFilePath]
                       noFilePath) b = ret v).
  { unfold getValueOfFirstChild, getValue.
    cbn [mChildren isToken isString mType mValue NodeType_eqb negb andb].
    now rewrite He, Hrt. }
  eexists. eexists.
  exists (mkSExpression List_ child
            [mkSExpression Token (objectToString v) [] noFilePath] noFilePath).
  rewrite (appendTokenChild_spec n child v linebreak Hl).
  split; [reflexivity|]. split; [|split].
  - cbn [mChildren setChildren resolve]. now rewrite nth_error_middle.
  - exact Hread.
  - intros getChildByPath Hp. unfold getValueByPath. rewrite Hp. exact Hread.
Qed.

End AppendThenRead.

Lemma append_child_methods_witness :
  (exists nt r,
     appendTokenChild sampleList "mirror" true true = ret (nt, r)
     /\ r <> thisRef
     /\ resolve nt r
        = Some (mkSExpression List_ "mirror"
                  [mkSExpression Token "true" [] noFilePath] noFilePath))
  /\ appendTokenChild sampleBadBool "mirror" true true
     = appendList sampleBadBool "mirror" true.
Proof.
  split.
  - destruct (proj1 (append_child_methods (T := bool) sampleList "mirror" true true)
                eq_refl) as (nt & ns & r & H1 & _ & H2 & _ & _ & H3 & _).
    exists nt, r. auto.
  - exact (proj1 (proj2 (append_child_methods (T := bool) sampleBadBool "mirror"
                           true true) eq_refl)).
Defined.

Lemma append_then_getValueOfFirstChild_witness :
  exists nt ns,
    appendToken sampleParent false = ret (nt, thisRef)
    /\ appendString sampleParent false = ret (ns, thisRef)
    /\ (mChildren sampleParent <> [] ->
        getValueOfFirstChild (T := bool) nt true = getValueOfFirstChild sampleParent true
        /\ getValueOfFirstChild (T := bool) ns true
           = getValueOfFirstChild sampleParent true)
    /\ (mChildren sampleParent = [] ->
        stringToObject (objectToString false) = ret false ->
        QStr.isEmpty (objectToString false) && true = false ->
        getValueOfFirstChild nt true = ret false
        /\ getValueOfFirstChild ns true = ret false).
Proof.
  exact (append_then_getValueOfFirstChild (T := bool) sampleParent false true eq_refl).
Defined.

Lemma appendTokenChild_then_read_witness :
  exists (n' : SExpression) (r : Ref) (c : SExpression),
    appendTokenChild sampleList "mirror" true true = ret (n', r)
    /\ resolve n' r = Some c
    /\ getValueOfFirstChild (T := bool) c true = ret true
    /\ forall getChildByPath : SExpression -> QString -> Result SExpression,
         getChildByPath n' "mirror" = ret c ->
         getValueByPath (T := bool) getChildByPath n' "mirror" true = ret true.
Proof.
  exact (appendTokenChild_then_read (T := bool) sampleList "mirror" true true true
           eq_refl eq_refl eq_refl).
Defined.

Lemma getValue_created_value {T : Type} {dec : StringToObject T}
  (text : QString) (v : T) (b : bool) :
  stringToObject text = ret v ->
  QStr.isEmpty text && b = false ->
  getValue (createToken text) b = ret v /\ getValue (createString text) b = ret v.
Proof.
  intros Hrt He. unfold getValue, createToken, createString.
  cbn [isToken isString mType mValue NodeType_eqb negb andb].
  rewrite He, Hrt. split; reflexivity.
Qed.

(** What is read from a List without children after one append. *)
Lemma getValueOfFirstChild_appended {U : Type} {dec : StringToObject U}
  (n child : SExpression) (b : bool) :
  isList n = true -> mChildren n = [] ->
  exists n' r,
    appendChild n child false = ret (n', r)
    /\ getValueOfFirstChild (T := U) n' b = getValue child b.
Proof.
  intros Hl Hn. eexists. eexists. rewrite (appendChild_list n child false Hl).
  split; [reflexivity|].
  unfold getValueOfFirstChild. cbn [mChildren setChildren]. now rewrite Hn.
Qed.

Lemma number_not_empty (n : Z) : QStr.isEmpty (QStr.number n) = false.
Proof.
  destruct (number_canonical n) as [Hc _].
  destruct (QStr.number n); [discriminate Hc | reflexivity].
Qed.

Lemma numberN_isEmpty (n : N) : QStr.isEmpty (QStr.numberN n) = false.
Proof.
  destruct (numberN_shape n) as (c & r & -> & _). reflexivity.
Qed.

Lemma appendToken_read {T U : Type} {enc : ObjectToString T} {dec : StringToObject U}
  (n : SExpression) (v : T) (u : U) (b : bool) :
  isList n = true -> mChildren n = [] ->
  stringToObject (T := U) (objectToString v) = ret u ->
  QStr.isEmpty (objectToString v) && b = false ->
  (exists n', appendToken n v = ret (n', thisRef)
              /\ getValueOfFirstChild (T := U) n' b = ret u)
  /\ (exists n', appendString n v = ret (n', thisRef)
                 /\ getValueOfFirstChild (T := U) n' b = ret u).
Proof.
  intros Hl Hn Hrt He.
  destruct (getValue_created_value (objectToString v) u b Hrt He) as [Gt Gs].
  split.
  - destruct (getValueOfFirstChild_appended (U := U) n
                (createToken (objectToString v)) b Hl Hn) as (n' & r & Ha & Hg).
    exists n'. unfold appendToken. rewrite Ha. split; [reflexivity|].
    now rewrite Hg.
  - destruct (getValueOfFirstChild_appended (U := U) n
                (createString (objectToString v)) b Hl Hn) as (n' & r & Ha & Hg).
    exists n'. unfold appendString. rewrite Ha. split; [reflexivity|].
    now rewrite Hg.
Qed.

(** X17: the values of the built-in types come back through the tree.  On a
    List node without children, a bool, an int and a uint (each within its
    range) appended with appendToken are read back by getValueOfFirstChild
    as the same value, with or without throwIfEmpty; a QString appended
    with appendString is read back unchanged, except that throwIfEmpty
    refuses the empty one. *)
Theorem built_in_values_round_trip (n : SExpression) (b : bool) :
  isList n = true -> mChildren n = [] ->
  (forall v : bool,
     exists n', appendToken n v = ret (n', thisRef)
                /\ getValueOfFirstChild (T := bool) n' b = ret v)
  /\ (forall v : int,
        QStr.INT_MIN <= v <= QStr.INT_MAX ->
        exists n', appendToken n v = ret (n', thisRef)
                   /\ getValueOfFirstChild (T := int) n' b = ret v)
  /\ (forall v : uint,
        (v <= QStr.UINT_MAX)%N ->
        exists n', appendToken n v = ret (n', thisRef)
                   /\ getValueOfFirstChild (T := uint) n' b = ret v)
  /\ (forall v : QString,
        QStr.isEmpty v && b = false ->
        exists n', appendString n v = ret (n', thisRef)
                   /\ getValueOfFirstChild (T := QString) n' b = ret v).
Proof.
  intros Hl Hn. split; [|split; [|split]].
  - intros v. apply (appendToken_read (U := bool) n v v b Hl Hn);
      destruct v; reflexivity.
  - intros v Hr. apply (appendToken_read (U := int) n v v b Hl Hn).
    + change (stringToObject_int (QStr.number v) = ret v).
      unfold stringToObject_int. destruct (number_canonical v) as [Hc Hv].
      rewrite (toInt_canonical (QStr.number v) Hc); rewrite Hv; [reflexivity | exact Hr].
    + change (QStr.isEmpty (QStr.number v) && b = false).
      now rewrite number_not_empty.
  - intros v Hr. apply (appendToken_read (U := uint) n v v b Hl Hn).
    + change (stringToObject_uint (QStr.numberN v) = ret v).
      unfold stringToObject_uint. now rewrite (toUInt_numberN v Hr).
    + change (QStr.isEmpty (QStr.numberN v) && b = false).
      now rewrite numberN_isEmpty.
  - intros v He. apply (appendToken_read (U := QString) n v v b Hl Hn);
      [reflexivity | exact He].
Qed.

Lemma built_in_values_round_trip_witness :
  (exists n', appendToken sampleList true = ret (n', thisRef)
              /\ getValueOfFirstChild (T := bool) n' true = ret true)
  /\ (exists n', appendToken sampleList (-7 : int) = ret (n', thisRef)
                 /\ getValueOfFirstChild (T := int) n' true = ret (-7 : int)).
Proof.
  split.
  - exact (proj1 (built_in_values_round_trip sampleList true eq_refl eq_refl) true).
  - apply (proj1 (proj2 (built_in_values_round_trip sampleList true eq_refl eq_refl)) (-7)).
    unfold QStr.INT_MIN, QStr.INT_MAX. lia.
Defined.
